(** * Beam-search decoding of [Seq2SeqWithBPE] (src/seq2seq.py)

    A shallow embedding of [Seq2SeqWithBPE.decode_beam_search] and the
    properties of its bookkeeping: the step budget, the pruning invariants,
    the scoring, and what is handed to the detokenizer.

    Numbers.  Probabilities are rationals ([Q]); the model may return any
    rational, also a negative one or a vector that does not sum to one.
    A score is [0.0] minus a sum of [np.log] values, so every number the
    decoder computes is the logarithm of a positive rational, an infinity,
    or NaN.  The type [fnum] holds exactly these values, with exact
    arithmetic: rounding of the machine floats is outside the model.

    External code.  The encoder and decoder networks, [np.argsort] and
    [DecodePieces] are not part of the repository; they are variables of
    the section [Decoder].

    The batch generator of [create_batch_generator] is the module
    [Batch]. *)

From Stdlib Require Import List ZArith QArith Qreduction Bool Lia Arith String.
From Stdlib Require Import Permutation Sorted.
From Stdlib Require Reals Qreals.
Import ListNotations.

Set Implicit Arguments.

(** ** Numbers: logarithms of positive rationals, infinities and NaN *)

Module Num.

(** [Ln q] (with [0 < q]) is the real number [ln q]. *)
Inductive fnum : Type :=
| Ln (q : Q)
| PInf
| NInf
| NaN.

(** The literal [0.0]. *)
Definition zero : fnum := Ln 1.

(** [np.log p]: [-inf] at zero and NaN below it (numpy warns and goes on). *)
Definition np_log (p : Q) : fnum :=
  match p ?= 0 with
  | Gt => Ln (Qred p)
  | Eq => NInf
  | Lt => NaN
  end.

(** Subtraction [a - b]. *)
Definition sub (a b : fnum) : fnum :=
  match a, b with
  | NaN, _ | _, NaN => NaN
  | Ln x, Ln y => Ln (Qred (x / y))
  | Ln _, PInf => NInf
  | Ln _, NInf => PInf
  | PInf, PInf => NaN
  | PInf, _ => PInf
  | NInf, NInf => NaN
  | NInf, _ => NInf
  end.

(** The comparison [a < b]; every comparison with NaN is false. *)
Definition ltb (a b : fnum) : bool :=
  match a, b with
  | NaN, _ | _, NaN => false
  | NInf, NInf => false
  | NInf, _ => true
  | _, NInf => false
  | PInf, _ => false
  | Ln _, PInf => true
  | Ln x, Ln y => match x ?= y with Lt => true | _ => false end
  end.

(** [a <= b]. *)
Definition leb (a b : fnum) : bool :=
  match a, b with
  | NaN, _ | _, NaN => false
  | NInf, _ => true
  | _, NInf => false
  | _, PInf => true
  | PInf, _ => false
  | Ln x, Ln y => match x ?= y with Gt => false | _ => true end
  end.

Definition is_nan (a : fnum) : bool :=
  match a with NaN => true | _ => false end.

Definition is_finite (a : fnum) : bool :=
  match a with Ln _ => true | _ => false end.

(** A well-formed number: the argument of a logarithm is positive. *)
Definition wf (a : fnum) : Prop :=
  match a with Ln q => 0 < q | _ => True end.

(** A score that the decoder can reach with non-negative probabilities:
    not NaN and not [-inf]. *)
Definition ordered (a : fnum) : Prop :=
  match a with Ln q => 0 < q | PInf => True | _ => False end.

(** A score that is at least [0.0]. *)
Definition nonneg (a : fnum) : Prop := leb zero a = true.

End Num.

Import Num.

(** The real number a finite [fnum] stands for. *)
Module NumReal.
Import Reals Qreals.

Definition denote (a : fnum) : option R :=
  match a with
  | Ln q => Some (ln (Q2R q))
  | _ => None
  end.

End NumReal.

(** ** Exceptions *)

Inductive exn : Type :=
| ValueError   (* np.zeros with a negative dimension *)
| IndexError.  (* an index out of range *)

Inductive result (A : Type) : Type :=
| Ok (a : A)
| Raise (e : exn).

Arguments Ok {A} a.
Arguments Raise {A} e.

Definition bind {A B : Type} (r : result A) (k : A -> result B) : result B :=
  match r with
  | Ok a => k a
  | Raise e => Raise e
  end.

Notation "x <- r ;; k" := (bind r (fun x => k))
  (at level 61, r at next level, right associativity).

Definition of_option {A : Type} (o : option A) (e : exn) : result A :=
  match o with
  | Some a => Ok a
  | None => Raise e
  end.

(** ** Python lists *)

(** [l[i]] for an index [i >= 0]. *)
Definition py_get {A : Type} (l : list A) (i : nat) : result A :=
  of_option (nth_error l i) IndexError.

(** [l[-1]]. *)
Definition py_last {A : Type} (l : list A) : result A :=
  of_option (nth_error (rev l) 0) IndexError.

(** [l[:n]]: a negative [n] counts from the end. *)
Definition py_take {A : Type} (n : Z) (l : list A) : list A :=
  if (n <? 0)%Z
  then firstn (Z.to_nat (Z.of_nat (List.length l) + n)) l
  else firstn (Z.to_nat n) l.

(** [sorted(l, key=...)] where [lt a b] is [key(a) < key(b)]: a stable
    sort by insertion.  Python's sort is stable, so on keys without NaN
    every implementation returns this list.  With NaN among the keys [<]
    is no order, and the result of Python's sort depends on the comparisons
    it happens to make: it is a permutation of the list, and it is the list
    as it stands when no entry is below its predecessor (the whole list is
    then one ascending run for Python's sort); both hold of [sorted]
    too. *)
Section Sorted.
Variable A : Type.
Variable lt : A -> A -> bool.

Fixpoint insert (x : A) (l : list A) : list A :=
  match l with
  | [] => [x]
  | y :: ys => if lt y x then y :: insert x ys else x :: y :: ys
  end.

Fixpoint sorted (l : list A) : list A :=
  match l with
  | [] => []
  | x :: xs => insert x (sorted xs)
  end.
End Sorted.

(** ** The data model *)

(** The attributes of [bpe_target] that the decoder reads. *)
Record bpe : Type := {
  start_token_idx : nat;
  start_token : string;
  stop_token_idx : nat;
  tokens : list string
}.

(** One entry of [top_candidates]. *)
Record candidate (State : Type) : Type := {
  states : State;
  idx_sequence : list nat;
  token_sequence : list string;
  score : fnum;
  live : bool
}.

Arguments states {State} c.
Arguments idx_sequence {State} c.
Arguments token_sequence {State} c.
Arguments score {State} c.
Arguments live {State} c.

(** ** The decoder *)

Section Decoder.

Variable Input State : Type.

(** [inference_encoder_model.predict]. *)
Variable encode : Input -> State.

(** [inference_decoder_model.predict] on a decoder input whose first
    entry is the last token id: the distribution [output[0, 0, :]] and
    the new state. *)
Variable step : nat -> State -> list Q * State.

(** [np.argsort]. *)
Variable argsort : list Q -> list nat.

(** [sentencepiece.DecodePieces]. *)
Variable DecodePieces : list string -> string.

Variable bpe_target : bpe.
Variable max_len_target : Z.
Variable beam_width : Z.

Definition beam : Type := list (candidate State).

(** Lines 150-156. *)
Definition initial_candidate (initial_states : State) : candidate State :=
  {| states := initial_states;
     idx_sequence := [start_token_idx bpe_target];
     token_sequence := [start_token bpe_target];
     score := zero;
     live := true |}.

(** Lines 169-170: [np.zeros((1, max_len_target - 1))] and the store
    into [target_seq[0, 0]]; the value is the token id fed to the
    network. *)
Definition target_seq (c : candidate State) : result nat :=
  if (max_len_target - 1 <? 0)%Z then Raise ValueError
  else
    last_idx <- py_last (idx_sequence c) ;;
    if (max_len_target - 1 =? 0)%Z then Raise IndexError
    else Ok last_idx.

(** Lines 177-187: the successor for one selected id. *)
Definition successor (c : candidate State) (probs : list Q)
           (new_states : State) (idx : nat) : result (candidate State) :=
  piece <- py_get (tokens bpe_target) idx ;;
  p <- py_get probs idx ;;
  Ok {| states := new_states;
        idx_sequence := idx_sequence c ++ [idx];
        token_sequence := token_sequence c ++ [piece];
        score := sub (score c) (np_log p);
        live := negb (idx =? stop_token_idx bpe_target)%nat |}.

Fixpoint successors (c : candidate State) (probs : list Q)
         (new_states : State) (ids : list nat) : result beam :=
  match ids with
  | [] => Ok []
  | idx :: rest =>
      s <- successor c probs new_states idx ;;
      ss <- successors c probs new_states rest ;;
      Ok (s :: ss)
  end.

(** Line 176: the ids [np.argsort(-probs)[:beam_width]]. *)
Definition selected (probs : list Q) : list nat :=
  py_take beam_width (argsort (map Qopp probs)).

(** Lines 165-187: what one candidate adds to [new_candidates]. *)
Definition expand (c : candidate State) : result beam :=
  if negb (live c) then Ok [c]
  else
    tok <- target_seq c ;;
    let (probs, new_states) := step tok (states c) in
    successors c probs new_states (selected probs).

(** Lines 163-187: the loop over [top_candidates]. *)
Fixpoint new_candidates (top : beam) : result beam :=
  match top with
  | [] => Ok []
  | c :: rest =>
      cs <- expand c ;;
      more <- new_candidates rest ;;
      Ok (cs ++ more)
  end.

Definition score_lt (a b : candidate State) : bool :=
  ltb (score a) (score b).

(** Ascending by score. *)
Definition score_le (a b : candidate State) : Prop :=
  leb (score a) (score b) = true.

(** Lines 189-191. *)
Definition prune (pool : beam) : beam :=
  py_take beam_width (sorted score_lt pool).

(** One iteration of the decode loop after its guard: lines 163-191. *)
Definition generation (top : beam) : result beam :=
  pool <- new_candidates top ;;
  Ok (prune pool).

(** Lines 193-195. *)
Definition count_live (top : beam) : nat :=
  List.length (filter (fun c => live c) top).
Definition count_dead (top : beam) : nat :=
  List.length (filter (fun c => negb (live c)) top).

(** Line 161: the guard [live_k and dead_k < beam_width]. *)
Definition running (live_k dead_k : nat) : bool :=
  negb (live_k =? 0)%nat && (Z.of_nat dead_k <? beam_width)%Z.

(** Lines 160-195: [fuel] iterations remain of [range(max_len_target)];
    [done] generations have been run.  The result is the number of
    generations that were started and the beam the loop ends with. *)
Fixpoint loop (fuel : nat) (top : beam) (live_k dead_k : nat) (done : nat)
  : nat * result beam :=
  match fuel with
  | O => (done, Ok top)
  | S fuel' =>
      if negb (running live_k dead_k) then (done, Ok top)
      else
        match generation top with
        | Raise e => (S done, Raise e)
        | Ok top' =>
            loop fuel' top' (count_live top') (count_dead top') (S done)
        end
  end.

(** Lines 148-195. *)
Definition search (input_seq : Input) : nat * result beam :=
  loop (Z.to_nat max_len_target)
       [initial_candidate (encode input_seq)] 1 0 0.

(** The number of generations the call runs. *)
Definition generations (input_seq : Input) : nat :=
  fst (search input_seq).

(** [top_candidates[0]] at line 197. *)
Definition winner (input_seq : Input) : result (candidate State) :=
  top <- snd (search input_seq) ;;
  py_get top 0.

(** The argument of [DecodePieces] at line 197. *)
Definition decoded_pieces (input_seq : Input) : result (list string) :=
  c <- winner input_seq ;;
  Ok (token_sequence c).

(** Lines 147-197. *)
Definition decode_beam_search (input_seq : Input) : result string :=
  pieces <- decoded_pieces input_seq ;;
  Ok (DecodePieces pieces).

(** The beams the loop of lines 160-195 holds: [reach input n top] when
    [top] is [top_candidates] after [n] iterations of the loop body. *)
Inductive reach (input_seq : Input) : nat -> beam -> Prop :=
| reach_initial :
    reach input_seq 0 [initial_candidate (encode input_seq)]
| reach_generation (n : nat) (top top' : beam) :
    reach input_seq n top ->
    (Z.of_nat n < max_len_target)%Z ->
    running (count_live top) (count_dead top) = true ->
    generation top = Ok top' ->
    reach input_seq (S n) top'.

(** *** Greedy decoding, from the words of the specification

    At every step the arg-max token of the step distribution is appended,
    until the stop token or the step budget is reached.  [pick] is the
    arg-max rule. *)
Section Greedy.
Variable pick : list Q -> nat.

Fixpoint greedy_steps (budget : nat) (st : State) (seq : list nat)
         (last_idx : nat) : list nat :=
  match budget with
  | O => seq
  | S budget' =>
      let (probs, st') := step last_idx st in
      let idx := pick probs in
      if (idx =? stop_token_idx bpe_target)%nat then seq ++ [idx]
      else greedy_steps budget' st' (seq ++ [idx]) idx
  end.

Definition greedy_decode (input_seq : Input) : list nat :=
  greedy_steps (Z.to_nat max_len_target) (encode input_seq)
               [start_token_idx bpe_target] (start_token_idx bpe_target).
End Greedy.

(** The id the decoder expands first: the head of [np.argsort(-probs)]. *)
Definition first_selected (probs : list Q) : nat :=
  hd O (argsort (map Qopp probs)).

End Decoder.

Arguments score_lt {State} a b.
Arguments score_le {State} a b.

(** ** Assumptions on the collaborators *)

Definition key (keys : list Q) (i : nat) : Q := nth i keys 0.

(** What numpy documents of [np.argsort]: the indices of the array, in an
    order along which the keys ascend.  The default kind is not stable; the
    order among equal keys is left open. *)
Definition argsort_spec (argsort : list Q -> list nat) : Prop :=
  forall keys : list Q,
    Permutation (argsort keys) (seq 0 (List.length keys)) /\
    StronglySorted (fun i j => key keys i <= key keys j) (argsort keys).

(** The order of a stable sort: by key, then by index. *)
Definition lex (keys : list Q) (i j : nat) : Prop :=
  key keys i < key keys j \/ (key keys i == key keys j /\ (i < j)%nat).

(** A stable [argsort]: equal keys stay in index order. *)
Definition argsort_stable_spec (argsort : list Q -> list nat) : Prop :=
  forall keys : list Q,
    Permutation (argsort keys) (seq 0 (List.length keys)) /\
    StronglySorted (lex keys) (argsort keys).

(** [i] is an arg-max of [probs]. *)
Definition is_argmax (probs : list Q) (i : nat) : Prop :=
  (i < List.length probs)%nat /\
  forall j : nat, (j < List.length probs)%nat -> key probs j <= key probs i.

Section Models.
Variable State : Type.
Variable step : nat -> State -> list Q * State.

(** The decoder network ends in [Dense(nr_target_tokens)]: a distribution
    has one entry per target token. *)
Definition vocabulary_sized (bpe_target : bpe) : Prop :=
  forall (tok : nat) (st : State),
    List.length (fst (step tok st)) = List.length (tokens bpe_target).

(** No probability is negative. *)
Definition nonneg_model : Prop :=
  forall (tok : nat) (st : State), Forall (fun p => 0 <= p) (fst (step tok st)).

(** Every probability lies in [0, 1]. *)
Definition unit_model : Prop :=
  forall (tok : nat) (st : State),
    Forall (fun p => 0 <= p /\ p <= 1) (fst (step tok st)).
End Models.

(** ** Two implementations of [np.argsort] *)

Definition qltb (x y : Q) : bool :=
  match x ?= y with Lt => true | _ => false end.

Definition qleb (x y : Q) : bool :=
  match x ?= y with Gt => false | _ => true end.

Definition key_lt (keys : list Q) (i j : nat) : bool :=
  qltb (key keys i) (key keys j).

Definition key_le (keys : list Q) (i j : nat) : bool :=
  qleb (key keys i) (key keys j).

(** Insertion sort of the indices: equal keys stay in index order. *)
Definition argsort_insertion (keys : list Q) : list nat :=
  sorted (key_lt keys) (seq 0 (List.length keys)).

(** An [argsort] that puts equal keys in descending index order. *)
Definition argsort_descending_ties (keys : list Q) : list nat :=
  sorted (key_le keys) (seq 0 (List.length keys)).

(** ** Scenario models *)

Module Scenario.

(** A vocabulary of four pieces; the stop token has id 1. *)
Definition four_tokens (start_idx : nat) (start_piece t0 t1 t2 t3 : string)
  : bpe :=
  {| start_token_idx := start_idx;
     start_token := start_piece;
     stop_token_idx := 1;
     tokens := [t0; t1; t2; t3] |}.

Definition vocabulary (start_idx : nat) : bpe :=
  four_tokens start_idx "<s>" "a" "</s>" "b" "c".

Definition encode (input_seq : list nat) : unit := tt.

(** Probability one for the stop token, whatever the input; [next] is
    the state the network returns. *)
Definition forced_stop_with (State : Type) (next : nat -> State -> State)
           (tok : nat) (st : State) : list Q * State :=
  ([0; 1; 0; 0], next tok st).

Definition forced_stop : nat -> unit -> list Q * unit :=
  forced_stop_with (fun _ st => st).

(** The uniform distribution over four tokens. *)
Definition uniform (tok : nat) (st : unit) : list Q * unit :=
  ([1 # 4; 1 # 4; 1 # 4; 1 # 4], st).

(** A vector of negative entries that sums to [-2]. *)
Definition degenerate (tok : nat) (st : unit) : list Q * unit :=
  ([-(1 # 2); -(1 # 2); -(1 # 2); -(1 # 2)], st).

(** A vector without negative entries that sums to [2]. *)
Definition oversized (tok : nat) (st : unit) : list Q * unit :=
  ([3 # 2; 1 # 2; 0; 0], st).

(** A network whose state counts its calls: token 2 is the most likely
    one in the first two calls, the stop token afterwards. *)
Definition counting_encode (input_seq : list nat) : nat := O.

Definition counting (tok : nat) (st : nat) : list Q * nat :=
  if (st <? 2)%nat
  then ([1 # 8; 1 # 4; 1 # 2; 1 # 8], S st)
  else ([1 # 8; 1 # 2; 1 # 4; 1 # 8], S st).

Definition DecodePieces (pieces : list string) : string :=
  String.concat "" pieces.

(** A vocabulary of two pieces: the start token has id 0, the stop token
    id 1. *)
Definition two_tokens : bpe :=
  {| start_token_idx := 0;
     start_token := "<s>"%string;
     stop_token_idx := 1;
     tokens := ["<s>"; "</s>"]%string |}.

(** A network that returns a distribution at its first call and a vector
    with one negative entry afterwards. *)
Definition one_negative (tok : nat) (st : nat) : list Q * nat :=
  if (st =? 0)%nat
  then ([3 # 4; 1 # 4], S st)
  else ([1 # 32; -(1 # 2)], S st).

(** A vector with one negative entry and one entry that is exactly 0. *)
Definition negative_and_zero (tok : nat) (st : unit) : list Q * unit :=
  ([-(1 # 2); 0], st).

End Scenario.

(** ** The model along an id sequence

    The comment of lines 183-184 reads the score as the sum of the
    [-log(prob)] of the tokens of a sequence.  [replay] feeds the ids of a
    sequence to the network, one after the other, from a state, a last id
    and a score, and returns the state and the sum it ends with. *)

Section Replay.
Variable State : Type.
Variable step : nat -> State -> list Q * State.

Fixpoint replay (st : State) (last_idx : nat) (sc : fnum) (ids : list nat)
  : result (State * fnum) :=
  match ids with
  | [] => Ok (st, sc)
  | idx :: rest =>
      let (probs, st') := step last_idx st in
      p <- py_get probs idx ;;
      replay st' idx (sub sc (np_log p)) rest
  end.
End Replay.

(** ** The batch generator

    [create_batch_generator] (lines 118-145).  The generator is the
    sequence of the outcomes of its [next] calls.  [np.random.permutation],
    [pad_sequences] and [to_categorical] are outside the repository: the
    shuffled ids of each pass of the [while] loop and the two Keras
    functions are variables, and a call of a Keras function returns or
    raises.  [np.array_split] follows what numpy documents: [l % n]
    sections of size [l // n + 1], then sections of size [l // n]. *)

Module Batch.
Local Open Scope nat_scope.

Inductive exn : Type :=
| ZeroDivisionError  (* len(samples_ids) / batch_size *)
| ValueError         (* np.array_split: number sections must be larger than 0;
                        pad_sequences *)
| IndexError.        (* iloc: positional indexers are out-of-bounds;
                        to_categorical: a label that is no class *)

(** The outcome of a [next] call. *)
Inductive outcome (A : Type) : Type :=
| Yield (a : A)
| Raise (e : exn)
| StopIteration.

Arguments Yield {A} a.
Arguments Raise {A} e.
Arguments StopIteration {A}.

Definition bind {A B : Type} (r : outcome A) (k : A -> outcome B) : outcome B :=
  match r with
  | Yield a => k a
  | Raise e => Raise e
  | StopIteration => StopIteration
  end.

(** A call of a function of Keras. *)
Inductive call (A : Type) : Type :=
| Returns (a : A)
| Raises (e : exn).

Arguments Returns {A} a.
Arguments Raises {A} e.

Definition called {A : Type} (r : call A) : outcome A :=
  match r with
  | Returns a => Yield a
  | Raises e => Raise e
  end.

(** [np.ceil(n / b)] for [b <> 0]; the float quotient of the source is
    exact enough for this on lengths below 2^53. *)
Definition ceil_div (n b : Z) : Z := (- ((- n) / b))%Z.

Definition section_sizes (total sections : nat) : list nat :=
  repeat (S (total / sections)) (total mod sections)
  ++ repeat (total / sections) (sections - total mod sections).

Fixpoint split_sizes {A : Type} (l : list A) (sizes : list nat)
  : list (list A) :=
  match sizes with
  | [] => []
  | size :: rest => firstn size l :: split_sizes (skipn size l) rest
  end.

(** [np.array_split(l, sections)]. *)
Definition array_split {A : Type} (l : list A) (sections : Z)
  : outcome (list (list A)) :=
  if (sections <=? 0)%Z then Raise ValueError
  else Yield (split_sizes l (section_sizes (List.length l) (Z.to_nat sections))).

(** [series.iloc[ids]]. *)
Fixpoint iloc {A : Type} (series : list A) (ids : list nat) : outcome (list A) :=
  match ids with
  | [] => Yield []
  | i :: rest =>
      match nth_error series i with
      | None => Raise IndexError
      | Some x => bind (iloc series rest) (fun xs => Yield (x :: xs))
      end
  end.

(** What one [yield] hands over: [([batch_X, batch_x_t_input],
    batch_y_t_output)]. *)
Record batch (Categorical : Type) : Type := {
  batch_X : list (list nat);
  batch_x_t_input : list (list nat);
  batch_y_t_output : Categorical
}.

Section Generator.
Variable Categorical : Type.
Variable pad_sequences : list (list nat) -> Z -> call (list (list nat)).
Variable to_categorical : list (list nat) -> nat -> call Categorical.

(** The ids [np.random.permutation(samples_ids)] returns in each pass of
    the [while] loop. *)
Variable permutation : nat -> list nat.

Variable samples_ids : list nat.
Variable input_sequences target_sequences : list (list nat).
Variable batch_size : Z.
Variable max_len_input max_len_target : Z.
Variable nr_target_tokens : nat.

(** What Keras documents of [pad_sequences(rows, maxlen=m)]: one row of
    width [m] per sequence. *)
Definition pad_shape : Prop :=
  forall (rows padded : list (list nat)) (m : Z),
    (0 < m)%Z ->
    pad_sequences rows m = Returns padded ->
    List.length padded = List.length rows /\
    Forall (fun row => List.length row = Z.to_nat m) padded.

(** [pad_sequences] returns for a positive [maxlen]. *)
Definition pad_returns : Prop :=
  forall (rows : list (list nat)) (m : Z),
    (0 < m)%Z -> exists padded, pad_sequences rows m = Returns padded.

(** An entry of a padded row is the padding value 0 or an entry of one of
    the sequences. *)
Definition pad_values : Prop :=
  forall (rows padded : list (list nat)) (m : Z),
    pad_sequences rows m = Returns padded ->
    Forall (Forall (fun x => x = 0 \/ exists row, In row rows /\ In x row))
           padded.

(** [to_categorical] returns when [num_classes] is positive and every
    label is a class. *)
Definition categorical_returns : Prop :=
  forall (labels : list (list nat)) (classes : nat),
    0 < classes ->
    Forall (Forall (fun label => label < classes)) labels ->
    exists y, to_categorical labels classes = Returns y.

(** The exception comes out of one of the Keras calls of lines 128-141. *)
Definition keras_raises (e : exn) : Prop :=
  (exists rows, pad_sequences rows max_len_input = Raises e) \/
  (exists rows, pad_sequences rows max_len_target = Raises e) \/
  (exists labels, to_categorical labels nr_target_tokens = Raises e).

(** Line 123. *)
Definition nr_batches : outcome Z :=
  if (batch_size =? 0)%Z then Raise ZeroDivisionError
  else Yield (ceil_div (Z.of_nat (List.length samples_ids)) batch_size).

(** The rows [batch_y[:, 1:]] that line 139 turns into labels. *)
Definition label_rows (batch_y : list (list nat)) : list (list nat) :=
  map (skipn 1) batch_y.

(** Lines 128-143, for the ids of one batch. *)
Definition make_batch (batch_ids : list nat) : outcome (batch Categorical) :=
  bind (iloc input_sequences batch_ids) (fun rows_X =>
  bind (called (pad_sequences rows_X max_len_input)) (fun batch_X =>
  bind (iloc target_sequences batch_ids) (fun rows_y =>
  bind (called (pad_sequences rows_y max_len_target)) (fun batch_y =>
  bind (called (to_categorical (label_rows batch_y) nr_target_tokens))
       (fun batch_y_t_output =>
  let batch_x_t_input := map (@removelast nat) batch_y in
  Yield {| batch_X := batch_X;
           batch_x_t_input := batch_x_t_input;
           batch_y_t_output := batch_y_t_output |}))))).

(** Lines 125-126, in pass [pass] of the [while] loop. *)
Definition batch_splits (pass : nat) : outcome (list (list nat)) :=
  bind nr_batches (fun n => array_split (permutation pass) n).

(** What the generator computes for its [k]-th item, counted from zero:
    the batch [k mod nr_batches] of pass [k / nr_batches]. *)
Definition item (k : nat) : outcome (batch Categorical) :=
  bind nr_batches (fun n =>
  bind (batch_splits (k / Z.to_nat n)) (fun splits =>
  make_batch (nth (k mod Z.to_nat n) splits []))).

(** The outcome of the [k]-th [next] call, counted from zero: a generator
    that has raised is finished. *)
Fixpoint next (k : nat) : outcome (batch Categorical) :=
  match k with
  | O => item 0
  | S k' =>
      match next k' with
      | Yield _ => item (S k')
      | _ => StopIteration
      end
  end.
End Generator.

End Batch.

(** ** A generator to run *)

Module BatchScenario.
Local Open Scope nat_scope.

(** The rows of [pad_sequences(rows, padding='post', maxlen=m)] for
    [0 < m]: the last [m] entries of a sequence, then zeros. *)
Definition pad_post (rows : list (list nat)) (maxlen : Z) : list (list nat) :=
  map (fun s =>
         let m := Z.to_nat maxlen in
         let trunc := skipn (List.length s - m) s in
         trunc ++ repeat 0 (m - List.length trunc))
      rows.

(** [pad_sequences] raises [ValueError] when [maxlen] is not positive. *)
Definition pad_sequences (rows : list (list nat)) (maxlen : Z)
  : Batch.call (list (list nat)) :=
  if (0 <? maxlen)%Z then Batch.Returns (pad_post rows maxlen)
  else Batch.Raises Batch.ValueError.

Definition one_hot (classes i : nat) : list nat :=
  map (fun j => if j =? i then 1 else 0) (seq 0 classes).

(** [to_categorical] raises [IndexError] on a label that is no class;
    with [num_classes = 0] it takes the largest label plus one for the
    number of classes, and [np.max] raises [ValueError] when there is no
    label. *)
Definition to_categorical (rows : list (list nat)) (classes : nat)
  : Batch.call (list (list (list nat))) :=
  match classes with
  | 0 =>
      match List.concat rows with
      | [] => Batch.Raises Batch.ValueError
      | labels => Batch.Returns (map (map (one_hot (S (list_max labels)))) rows)
      end
  | _ =>
      if forallb (forallb (fun label => label <? classes)) rows
      then Batch.Returns (map (map (one_hot classes)) rows)
      else Batch.Raises Batch.IndexError
  end.

Definition samples_ids : list nat := [0; 1; 2; 3; 4; 5; 6].

Definition shuffle (pass : nat) : list nat :=
  if Nat.even pass then [3; 0; 6; 1; 5; 2; 4] else [6; 5; 4; 3; 2; 1; 0].

Definition input_sequences : list (list nat) :=
  [[5]; [5; 6]; [7]; [8; 9; 5]; [6]; [7; 7]; [9]].

Definition target_sequences : list (list nat) :=
  [[2; 4; 1]; [2; 1]; [2; 5; 5; 1]; [2; 3; 1]; [2; 1]; [2; 4; 4; 4; 1]; [2; 1]].

(** Sample 9 is not a position of the series. *)
Definition stray_ids : list nat := [0; 1; 9; 3].

Definition stray_shuffle (pass : nat) : list nat := [3; 9; 0; 1].

End BatchScenario.

(** * Properties *)

Unset Implicit Arguments.

(** ** Arithmetic of [fnum] *)

Module NumFacts.

Lemma np_log_zero (p : Q) : p == 0 -> np_log p = NInf.
Proof.
  intros H. unfold np_log.
  now rewrite (proj1 (Qeq_alt p 0) H).
Qed.

Lemma np_log_pos (p : Q) : 0 < p -> np_log p = Ln (Qred p).
Proof.
  intros H. unfold np_log.
  now rewrite (proj1 (Qgt_alt p 0) H).
Qed.

Lemma np_log_neg (p : Q) : p < 0 -> np_log p = NaN.
Proof.
  intros H. unfold np_log.
  now rewrite (proj1 (Qlt_alt p 0) H).
Qed.

(** The logarithm of a probability that is not negative. *)
Lemma np_log_nonneg (p : Q) :
  0 <= p -> (p == 0 /\ np_log p = NInf) \/ (0 < p /\ np_log p = Ln (Qred p)).
Proof.
  intros H. destruct (Qlt_le_dec 0 p) as [Hpos | Hle].
  - right. split; [assumption | now apply np_log_pos].
  - left. assert (p == 0) by (apply Qle_antisym; assumption).
    split; [assumption | now apply np_log_zero].
Qed.

Lemma Qdiv_pos (x y : Q) : 0 < x -> 0 < y -> 0 < x / y.
Proof.
  intros Hx Hy. unfold Qdiv.
  apply Qmult_lt_0_compat; [assumption | now apply Qinv_lt_0_compat].
Qed.

(** Dividing by a probability in (0, 1] does not make a number smaller. *)
Lemma Qdiv_unit_le (x p : Q) : 0 < x -> 0 < p -> p <= 1 -> x <= x / p.
Proof.
  intros Hx Hp Hp1.
  apply Qle_shift_div_l; [assumption |].
  rewrite <- (Qmult_1_r x) at 2.
  rewrite !(Qmult_comm x).
  apply Qmult_le_compat_r; [assumption | now apply Qlt_le_weak].
Qed.

Lemma ordered_zero : ordered zero.
Proof. reflexivity. Qed.

(** Scores stay ordered when the probabilities are not negative. *)
Lemma sub_log_ordered (a : fnum) (p : Q) :
  ordered a -> 0 <= p -> ordered (sub a (np_log p)).
Proof.
  intros Ha Hp.
  destruct (np_log_nonneg p Hp) as [[_ E] | [Hpos E]]; rewrite E.
  - destruct a; simpl in *; auto.
  - destruct a as [x | | |]; try exact Ha.
    change (0 < Qred (x / Qred p)).
    rewrite !Qred_correct. now apply Qdiv_pos.
Qed.

(** A token of probability zero gives the score [+inf]. *)
Lemma sub_log_zero (a : fnum) (p : Q) :
  ordered a -> p == 0 -> sub a (np_log p) = PInf.
Proof.
  intros Ha Hp. rewrite (np_log_zero p Hp).
  destruct a; simpl in *; tauto.
Qed.

Lemma leb_refl (a : fnum) : ordered a -> leb a a = true.
Proof.
  destruct a as [x | | |]; try (simpl; tauto).
  intros _. unfold leb. now rewrite (proj1 (Qeq_alt x x) (Qeq_refl x)).
Qed.

Lemma leb_Ln (x y : Q) : leb (Ln x) (Ln y) = true <-> x <= y.
Proof.
  unfold leb. rewrite Qle_alt.
  destruct (x ?= y); split; intros H; try reflexivity; try discriminate.
  now elim H.
Qed.

Lemma ltb_Ln (x y : Q) : ltb (Ln x) (Ln y) = true <-> x < y.
Proof.
  unfold ltb. rewrite Qlt_alt.
  destruct (x ?= y); split; intros H; try reflexivity; try discriminate.
Qed.

Lemma leb_trans (a b c : fnum) :
  leb a b = true -> leb b c = true -> leb a c = true.
Proof.
  destruct a as [x | | |], b as [y | | |], c as [z | | |];
    try reflexivity; try discriminate.
  rewrite !leb_Ln. apply Qle_trans.
Qed.

(** On ordered scores [<] and [<=] are the two halves of a total order. *)
Lemma ltb_false_leb (a b : fnum) :
  ordered a -> ordered b -> ltb a b = false -> leb b a = true.
Proof.
  destruct a as [x | | |], b as [y | | |];
    try (simpl; tauto); try (simpl; discriminate).
  intros _ _. unfold ltb, leb. rewrite <- (Qcompare_antisym x y).
  destruct (x ?= y); simpl; congruence.
Qed.

Lemma ltb_true_leb (a b : fnum) : ltb a b = true -> leb a b = true.
Proof.
  destruct a as [x | | |], b as [y | | |]; try (simpl; congruence).
  unfold ltb, leb. destruct (x ?= y); congruence.
Qed.

Lemma nonneg_ordered (a : fnum) : nonneg a -> ordered a.
Proof.
  unfold nonneg, zero.
  destruct a as [x | | |]; try (simpl; discriminate); try (simpl; tauto).
  intros H. apply (proj1 (leb_Ln 1 x)) in H. change (0 < x).
  apply Qlt_le_trans with 1; [reflexivity | assumption].
Qed.

(** Subtracting the logarithm of a probability in [0, 1] does not lower
    a score. *)
Lemma sub_log_ge (a : fnum) (p : Q) :
  ordered a -> 0 <= p -> p <= 1 -> leb a (sub a (np_log p)) = true.
Proof.
  intros Ha Hp Hp1.
  destruct (np_log_nonneg p Hp) as [[_ E] | [Hpos E]]; rewrite E.
  - destruct a; simpl in *; tauto.
  - destruct a as [x | | |]; simpl in Ha; try tauto; try reflexivity.
    unfold sub. apply leb_Ln. rewrite !Qred_correct.
    now apply Qdiv_unit_le.
Qed.

Lemma sub_log_nonneg (a : fnum) (p : Q) :
  nonneg a -> 0 <= p -> p <= 1 -> nonneg (sub a (np_log p)).
Proof.
  intros Ha Hp Hp1. unfold nonneg.
  apply leb_trans with a; [assumption |].
  apply sub_log_ge; auto using nonneg_ordered.
Qed.

Lemma finite_leb_inf (a : fnum) : is_finite a = true -> leb a PInf = true.
Proof. destruct a; simpl; congruence. Qed.

Lemma inf_leb_finite (a : fnum) : leb PInf a = true -> is_finite a = false.
Proof. destruct a; simpl; congruence. Qed.

End NumFacts.

(** [fnum] computes with real logarithms: [np_log], [sub] and the
    comparisons agree with [ln], [-], [<] and [<=] on the reals. *)

Module NumRealFacts.
Import Reals Qreals NumReal.
Local Open Scope R_scope.

Lemma Q2R_pos (x : Q) : (0 < x)%Q -> 0 < Q2R x.
Proof. intros H. apply Qlt_Rlt in H. now rewrite RMicromega.Q2R_0 in H. Qed.

Lemma denote_zero : denote zero = Some 0.
Proof. unfold denote, zero. now rewrite RMicromega.Q2R_1, ln_1. Qed.

Lemma denote_np_log (p : Q) :
  (0 < p)%Q -> denote (np_log p) = Some (ln (Q2R p)).
Proof.
  intros H. unfold np_log. rewrite (proj1 (Qgt_alt p 0) H). unfold denote.
  now rewrite (Qeq_eqR _ _ (Qred_correct p)).
Qed.

Lemma denote_sub (x y : Q) :
  (0 < x)%Q -> (0 < y)%Q ->
  denote (sub (Ln x) (Ln y)) = Some (ln (Q2R x) - ln (Q2R y)).
Proof.
  intros Hx Hy. unfold sub, denote. f_equal.
  rewrite (Qeq_eqR _ _ (Qred_correct (x / y))).
  rewrite Q2R_div by (intros E; rewrite E in Hy; now apply Qlt_irrefl in Hy).
  unfold Rdiv. rewrite ln_mult, ln_Rinv; auto using Q2R_pos, Rinv_0_lt_compat.
Qed.

Lemma ltb_real (x y : Q) :
  (0 < x)%Q -> (0 < y)%Q ->
  ltb (Ln x) (Ln y) = true <-> ln (Q2R x) < ln (Q2R y).
Proof.
  intros Hx Hy. rewrite NumFacts.ltb_Ln. split; intros Hlt.
  - apply ln_increasing; [now apply Q2R_pos | now apply Qlt_Rlt].
  - apply Rlt_Qlt, ln_lt_inv; auto using Q2R_pos.
Qed.

Lemma leb_real (x y : Q) :
  (0 < x)%Q -> (0 < y)%Q ->
  leb (Ln x) (Ln y) = true <-> ln (Q2R x) <= ln (Q2R y).
Proof.
  intros Hx Hy. rewrite NumFacts.leb_Ln. split; intros Hle.
  - apply Qle_Rle in Hle. destruct Hle as [Hlt | Heq].
    + left. apply ln_increasing; [now apply Q2R_pos | assumption].
    + right. now rewrite Heq.
  - apply Rle_Qle. destruct Hle as [Hlt | Heq].
    + left. apply ln_lt_inv; auto using Q2R_pos.
    + right. apply ln_inv; auto using Q2R_pos.
Qed.

End NumRealFacts.

(** ** Python lists and [sorted] *)

Section ListFacts.
Variable A : Type.

Lemma py_take_nonneg (n : Z) (l : list A) :
  (0 <= n)%Z -> py_take n l = firstn (Z.to_nat n) l.
Proof.
  intros H. unfold py_take.
  destruct (Z.ltb_spec n 0); [lia | reflexivity].
Qed.

Lemma py_take_length (n : Z) (l : list A) :
  (0 <= n)%Z -> (Z.of_nat (List.length (py_take n l)) <= n)%Z.
Proof.
  intros H. rewrite py_take_nonneg by assumption.
  rewrite length_firstn. lia.
Qed.

Lemma firstn_incl (n : nat) (l : list A) (x : A) :
  In x (firstn n l) -> In x l.
Proof.
  intros H. rewrite <- (firstn_skipn n l). apply in_or_app. now left.
Qed.

Lemma py_take_incl (n : Z) (l : list A) (x : A) :
  In x (py_take n l) -> In x l.
Proof.
  unfold py_take. destruct (n <? 0)%Z; apply firstn_incl.
Qed.

Lemma py_get_In (l : list A) (i : nat) (x : A) :
  py_get l i = Ok x -> In x l.
Proof.
  unfold py_get. destruct (nth_error l i) eqn:E; simpl; [| discriminate].
  intros H. injection H as <-. eapply nth_error_In; eassumption.
Qed.

Lemma py_get_lt (l : list A) (i : nat) :
  (i < List.length l)%nat -> exists x, py_get l i = Ok x.
Proof.
  intros H. unfold py_get.
  destruct (nth_error l i) eqn:E; [eexists; reflexivity |].
  apply nth_error_None in E. lia.
Qed.

Lemma py_last_app (l : list A) (x : A) : py_last (l ++ [x]) = Ok x.
Proof. unfold py_last. now rewrite rev_app_distr. Qed.

Lemma StronglySorted_firstn (R : A -> A -> Prop) (n : nat) (l : list A) :
  StronglySorted R l -> StronglySorted R (firstn n l).
Proof.
  intros H. revert n. induction H as [| x l Hl IH Hx]; intros [| n]; simpl;
    try constructor; auto.
  rewrite Forall_forall in *. intros y Hy. apply Hx. eapply firstn_incl, Hy.
Qed.

Lemma StronglySorted_py_take (R : A -> A -> Prop) (n : Z) (l : list A) :
  StronglySorted R l -> StronglySorted R (py_take n l).
Proof.
  intros H. unfold py_take. destruct (n <? 0)%Z; now apply StronglySorted_firstn.
Qed.

(** In a sorted list everything after an element is above it. *)
Lemma StronglySorted_after (R : A -> A -> Prop) (pre post : list A) (x : A) :
  StronglySorted R (pre ++ x :: post) -> Forall (R x) post.
Proof.
  induction pre as [| y pre IH]; simpl; intros H.
  - now apply StronglySorted_inv in H.
  - apply IH. now apply StronglySorted_inv in H.
Qed.

Lemma StronglySorted_app_lr (R : A -> A -> Prop) (l1 l2 : list A) (x y : A) :
  StronglySorted R (l1 ++ l2) -> In x l1 -> In y l2 -> R x y.
Proof.
  induction l1 as [| z l1 IH]; simpl; intros H Hx Hy; [contradiction |].
  apply StronglySorted_inv in H. destruct H as [Hs Hz].
  destruct Hx as [-> | Hx]; [| now apply IH].
  rewrite Forall_forall in Hz. apply Hz, in_or_app. now right.
Qed.

Variable cmp : A -> A -> bool.

Lemma insert_perm (x : A) (l : list A) : Permutation (insert cmp x l) (x :: l).
Proof.
  induction l as [| y l IH]; simpl; [reflexivity |].
  destruct (cmp y x); [| reflexivity].
  rewrite IH. apply perm_swap.
Qed.

Lemma sorted_perm (l : list A) : Permutation (sorted cmp l) l.
Proof.
  induction l as [| x l IH]; simpl; [reflexivity |].
  rewrite insert_perm. now constructor.
Qed.

(** A list in which no entry is below its predecessor is returned as it
    stands. *)
Lemma sorted_run (l : list A) :
  Sorted (fun x y => cmp y x = false) l -> sorted cmp l = l.
Proof.
  induction 1 as [| x l _ IH Hd]; simpl; [reflexivity |].
  rewrite IH. destruct Hd as [| y l Hyx]; simpl; [reflexivity |].
  now rewrite Hyx.
Qed.

Lemma sorted_length (l : list A) : List.length (sorted cmp l) = List.length l.
Proof. apply Permutation_length, sorted_perm. Qed.

Lemma sorted_In (l : list A) (x : A) : In x (sorted cmp l) <-> In x l.
Proof.
  split; apply Permutation_in; [| symmetry]; apply sorted_perm.
Qed.

(** [sorted] sorts, on a domain [P] where [cmp] decides a total
    preorder [le]. *)
Section Order.
Variable P : A -> Prop.
Variable le : A -> A -> Prop.
Hypothesis cmp_true : forall x y, P x -> P y -> cmp y x = true -> le y x.
Hypothesis cmp_false : forall x y, P x -> P y -> cmp y x = false -> le x y.
Hypothesis le_trans : forall x y z, le x y -> le y z -> le x z.

Lemma insert_StronglySorted (x : A) (l : list A) :
  P x -> Forall P l -> StronglySorted le l ->
  StronglySorted le (insert cmp x l).
Proof.
  intros Hx HP Hs. induction Hs as [| y l Hl IH Hy]; simpl.
  - repeat constructor.
  - apply Forall_cons_iff in HP. destruct HP as [HPy HPl].
    destruct (cmp y x) eqn:E.
    + constructor; [now apply IH |].
      rewrite Forall_forall. intros z Hz.
      apply (Permutation_in _ (insert_perm x l)) in Hz.
      destruct Hz as [<- | Hz]; [now apply cmp_true |].
      rewrite Forall_forall in Hy. now apply Hy.
    + assert (Hxy : le x y) by now apply cmp_false.
      constructor; [now constructor |].
      constructor; [assumption |].
      rewrite Forall_forall in *. intros z Hz.
      apply le_trans with y; auto.
Qed.

Lemma sorted_StronglySorted (l : list A) :
  Forall P l -> StronglySorted le (sorted cmp l).
Proof.
  induction l as [| x l IH]; simpl; intros H; [constructor |].
  apply Forall_cons_iff in H. destruct H as [Hx Hl].
  apply insert_StronglySorted; auto.
  rewrite Forall_forall in Hl. apply Forall_forall. intros y Hy.
  apply Hl, (proj1 (sorted_In l y)), Hy.
Qed.
End Order.

End ListFacts.

(** ** [np.argsort] *)

Module ArgsortFacts.

Lemma qltb_lt (x y : Q) : qltb x y = true <-> x < y.
Proof.
  unfold qltb. rewrite Qlt_alt. destruct (x ?= y); split; congruence.
Qed.

Lemma qltb_ge (x y : Q) : qltb x y = false <-> y <= x.
Proof.
  split.
  - intros H. apply Qnot_lt_le. intros Hlt.
    apply qltb_lt in Hlt. congruence.
  - intros H. destruct (qltb x y) eqn:E; [| reflexivity].
    apply qltb_lt in E. now apply Qle_not_lt in H.
Qed.

Lemma qleb_le (x y : Q) : qleb x y = true <-> x <= y.
Proof.
  unfold qleb. rewrite Qle_alt. destruct (x ?= y); split; congruence.
Qed.

Lemma qleb_gt (x y : Q) : qleb x y = false -> y <= x.
Proof.
  intros H. apply Qnot_lt_le. intros Hlt.
  apply Qlt_le_weak, qleb_le in Hlt. congruence.
Qed.

(** The key of an index in the negated distribution. *)
Lemma key_opp (probs : list Q) (i : nat) :
  key (map Qopp probs) i = - key probs i.
Proof.
  unfold key. change 0 with (- 0) at 1. apply map_nth.
Qed.

Lemma lex_le (keys : list Q) (i j : nat) :
  lex keys i j -> key keys i <= key keys j.
Proof.
  intros [H | [H _]]; [now apply Qlt_le_weak | now apply Qle_lteq; right].
Qed.

Lemma le_lex (keys : list Q) (i j : nat) :
  key keys i <= key keys j -> (i < j)%nat -> lex keys i j.
Proof.
  intros H Hij. apply Qle_lteq in H. destruct H as [H | H];
    [now left | now right].
Qed.

Lemma stable_spec_spec (argsort : list Q -> list nat) :
  argsort_stable_spec argsort -> argsort_spec argsort.
Proof.
  intros H keys. destruct (H keys) as [Hperm Hs]. split; [assumption |].
  clear Hperm. induction Hs as [| i l _ IH Hi]; constructor; [assumption |].
  eapply Forall_impl; [| exact Hi]. intros j. apply lex_le.
Qed.

Section Insertion.
Variable keys : list Q.

Lemma insert_lex (x : nat) (l : list nat) :
  StronglySorted (lex keys) l -> Forall (fun y => x < y)%nat l ->
  StronglySorted (lex keys) (insert (key_lt keys) x l).
Proof.
  intros Hs. induction Hs as [| y l Hl IH Hy]; simpl; intros Hx.
  - repeat constructor.
  - apply Forall_cons_iff in Hx. destruct Hx as [Hxy Hxl].
    unfold key_lt at 1. destruct (qltb (key keys y) (key keys x)) eqn:E.
    + constructor; [now apply IH |].
      apply Forall_forall. intros z Hz.
      apply (Permutation_in _ (insert_perm _ (key_lt keys) x l)) in Hz.
      destruct Hz as [<- | Hz].
      * left. now apply qltb_lt.
      * rewrite Forall_forall in Hy. now apply Hy.
    + apply qltb_ge in E.
      constructor; [now constructor |].
      constructor; [now apply le_lex |].
      rewrite Forall_forall in *. intros z Hz.
      apply le_lex; [| now apply Hxl].
      apply Qle_trans with (key keys y); [assumption |].
      now apply lex_le, Hy.
Qed.

Lemma sorted_lex (l : list nat) :
  StronglySorted Nat.lt l -> StronglySorted (lex keys) (sorted (key_lt keys) l).
Proof.
  induction 1 as [| x l _ IH Hx]; simpl; [constructor |].
  apply insert_lex; [assumption |].
  rewrite Forall_forall in *. intros y Hy. apply Hx.
  apply (proj1 (sorted_In _ (key_lt keys) l y)), Hy.
Qed.
End Insertion.

Lemma seq_sorted (n start : nat) : StronglySorted Nat.lt (seq start n).
Proof.
  revert start. induction n as [| n IH]; intros start; simpl; constructor.
  - apply IH.
  - apply Forall_forall. intros y Hy. apply in_seq in Hy.
    unfold Nat.lt. lia.
Qed.

(** Insertion sort is a stable [argsort]. *)
Lemma argsort_insertion_stable : argsort_stable_spec argsort_insertion.
Proof.
  intros keys. unfold argsort_insertion. split.
  - apply sorted_perm.
  - apply (sorted_lex keys), seq_sorted.
Qed.

Lemma argsort_insertion_spec : argsort_spec argsort_insertion.
Proof. apply stable_spec_spec, argsort_insertion_stable. Qed.

(** Putting equal keys in descending index order is within what numpy
    documents. *)
Lemma argsort_descending_ties_spec : argsort_spec argsort_descending_ties.
Proof.
  intros keys. unfold argsort_descending_ties. split.
  - apply sorted_perm.
  - apply sorted_StronglySorted with (P := fun _ => True).
    + intros x y _ _ H. now apply qleb_le.
    + intros x y _ _ H. now apply qleb_gt.
    + intros x y z. apply Qle_trans.
    + apply Forall_forall. trivial.
Qed.

(** A list of distinct numbers that holds, with a number, every smaller
    one is an initial segment of the naturals. *)
Lemma downward_closed_segment (ids : list nat) :
  NoDup ids ->
  (forall i j : nat, (i < j)%nat -> In j ids -> In i ids) ->
  forall i : nat, In i ids <-> (i < List.length ids)%nat.
Proof.
  intros Hnd Hdown i. split.
  - intros Hi.
    assert (Hincl : incl (seq 0 (S i)) ids).
    { intros k Hk. apply in_seq in Hk.
      destruct (Nat.eq_dec k i) as [-> | Hne]; [assumption |].
      apply (Hdown k i); [lia | assumption]. }
    apply (NoDup_incl_length (seq_NoDup (S i) 0)) in Hincl.
    rewrite length_seq in Hincl. lia.
  - intros Hlt. destruct (in_dec Nat.eq_dec i ids) as [Hin | Hout];
      [assumption | exfalso].
    assert (Hincl : incl ids (seq 0 i)).
    { intros k Hk. apply in_seq.
      destruct (Nat.lt_ge_cases k i) as [Hki | Hki]; [lia |].
      destruct (Nat.eq_dec k i) as [-> | Hne]; [contradiction |].
      elim Hout. apply (Hdown i k); [lia | assumption]. }
    apply (NoDup_incl_length Hnd) in Hincl.
    rewrite length_seq in Hincl. lia.
Qed.

End ArgsortFacts.

(** ** The exception monad *)

Lemma bind_Ok (A B : Type) (r : result A) (k : A -> result B) (b : B) :
  bind r k = Ok b -> exists a : A, r = Ok a /\ k a = Ok b.
Proof.
  destruct r as [a | e]; simpl; [| discriminate].
  intros H. now exists a.
Qed.

(** Split a hypothesis [x <- r ;; k = Ok b] into its two halves. *)
Ltac inv_bind H :=
  let a := fresh "a" in
  let E := fresh "E" in
  apply bind_Ok in H; destruct H as [a [E H]].

Ltac inv_Ok H := injection H as H; subst.

(** ** The expansion step, the pruning step and the loop *)

Section DecoderFacts.

Variable Input State : Type.
Variable encode : Input -> State.
Variable step : nat -> State -> list Q * State.
Variable argsort : list Q -> list nat.
Variable DecodePieces : list string -> string.
Variable bpe_target : bpe.
Variable max_len_target : Z.
Variable beam_width : Z.

Local Abbreviation beam := (list (candidate State)).
Local Abbreviation successor' := (successor bpe_target).
Local Abbreviation successors' := (successors bpe_target).
Local Abbreviation selected' := (selected argsort beam_width).
Local Abbreviation target_seq' := (target_seq max_len_target).
Local Abbreviation expand' := (expand step argsort bpe_target max_len_target beam_width).
Local Abbreviation new_candidates' :=
  (new_candidates step argsort bpe_target max_len_target beam_width).
Local Abbreviation prune' := (prune (State := State) beam_width).
Local Abbreviation generation' :=
  (generation step argsort bpe_target max_len_target beam_width).
Local Abbreviation running' := (running beam_width).
Local Abbreviation loop' := (loop step argsort bpe_target max_len_target beam_width).
Local Abbreviation search' :=
  (search encode step argsort bpe_target max_len_target beam_width).
Local Abbreviation reach' :=
  (reach encode step argsort bpe_target max_len_target beam_width).
Local Abbreviation winner' :=
  (winner encode step argsort bpe_target max_len_target beam_width).
Local Abbreviation initial_candidate' := (initial_candidate (State := State) bpe_target).

(** *** Expansion *)

Lemma successor_Ok (c s : candidate State) (probs : list Q) (st : State)
      (idx : nat) :
  successor' c probs st idx = Ok s ->
  exists (piece : string) (p : Q),
    nth_error (tokens bpe_target) idx = Some piece /\
    nth_error probs idx = Some p /\
    s = {| states := st;
           idx_sequence := idx_sequence c ++ [idx];
           token_sequence := token_sequence c ++ [piece];
           score := sub (score c) (np_log p);
           live := negb (idx =? stop_token_idx bpe_target)%nat |}.
Proof.
  unfold successor, py_get. intros H.
  destruct (nth_error (tokens bpe_target) idx) as [piece |]; [| discriminate].
  destruct (nth_error probs idx) as [p |]; [| discriminate].
  simpl in H. inv_Ok H. now exists piece, p.
Qed.

Lemma successors_Ok (c : candidate State) (probs : list Q) (st : State)
      (ids : list nat) (ss : beam) :
  successors' c probs st ids = Ok ss ->
  Forall2 (fun idx s => successor' c probs st idx = Ok s) ids ss.
Proof.
  revert ss. induction ids as [| idx ids IH]; simpl; intros ss H.
  - inv_Ok H. constructor.
  - inv_bind H. inv_bind H. inv_Ok H. constructor; auto.
Qed.

Lemma successors_In (c s : candidate State) (probs : list Q) (st : State)
      (ids : list nat) (ss : beam) :
  successors' c probs st ids = Ok ss -> In s ss ->
  exists idx, In idx ids /\ successor' c probs st idx = Ok s.
Proof.
  intros H. apply successors_Ok in H.
  induction H as [| idx s' ids ss Hs _ IH]; simpl; [contradiction |].
  intros [<- | Hin].
  - exists idx. auto.
  - destruct (IH Hin) as [i [Hi Hsi]]. exists i. auto.
Qed.

(** A dead candidate passes through unchanged. *)
Lemma expand_dead (c : candidate State) :
  live c = false -> expand' c = Ok [c].
Proof. intros H. unfold expand. now rewrite H. Qed.

(** A live candidate is replaced by its successors'. *)
Lemma expand_live (c : candidate State) (cs : beam) :
  live c = true -> expand' c = Ok cs ->
  exists tok : nat,
    target_seq' c = Ok tok /\
    successors' c (fst (step tok (states c))) (snd (step tok (states c)))
               (selected' (fst (step tok (states c)))) = Ok cs.
Proof.
  intros Hl H. unfold expand in H. rewrite Hl in H. simpl in H.
  inv_bind H. exists a. split; [assumption |].
  now destruct (step a (states c)).
Qed.

(** Every member of an expansion is the candidate itself, when it is
    dead, or a successor' of it. *)
Lemma expand_In (c s : candidate State) (cs : beam) :
  expand' c = Ok cs -> In s cs ->
  (live c = false /\ s = c) \/
  (live c = true /\
   exists (tok idx : nat),
     target_seq' c = Ok tok /\
     In idx (selected' (fst (step tok (states c)))) /\
     successor' c (fst (step tok (states c))) (snd (step tok (states c))) idx
     = Ok s).
Proof.
  intros H Hin. destruct (live c) eqn:Hl.
  - right. split; [reflexivity |].
    destruct (expand_live c cs Hl H) as [tok [Ht Hs]].
    destruct (successors_In _ _ _ _ _ _ Hs Hin) as [idx [Hi Hsi]].
    now exists tok, idx.
  - left. rewrite (expand_dead c Hl) in H. inv_Ok H.
    destruct Hin as [<- | []]. auto.
Qed.

Lemma new_candidates_In (top pool : beam) (s : candidate State) :
  new_candidates' top = Ok pool -> In s pool ->
  exists (c : candidate State) (cs : beam),
    In c top /\ expand' c = Ok cs /\ In s cs.
Proof.
  revert pool. induction top as [| c top IH]; simpl; intros pool H Hin.
  - inv_Ok H. contradiction.
  - inv_bind H. inv_bind H. inv_Ok H.
    apply in_app_or in Hin. destruct Hin as [Hin | Hin].
    + exists c, a. auto.
    + destruct (IH _ E0 Hin) as [c' [cs [Hc [He Hs]]]].
      exists c', cs. auto.
Qed.

(** Every member of an expansion reaches the pool. *)
Lemma new_candidates_incl (top pool cs : beam) (c s : candidate State) :
  new_candidates' top = Ok pool -> In c top -> expand' c = Ok cs -> In s cs ->
  In s pool.
Proof.
  revert pool. induction top as [| c' top IH]; simpl; intros pool H Hc He Hs;
    [contradiction |].
  inv_bind H. inv_bind H. inv_Ok H. apply in_or_app.
  destruct Hc as [-> | Hc].
  - left. rewrite He in E. now inv_Ok E.
  - right. eapply IH; eauto.
Qed.

(** *** Invariants of the candidates *)

Section CandidateInvariant.
Variable P : candidate State -> Prop.
Hypothesis P_successor :
  forall (c s : candidate State) (probs : list Q) (st : State) (tok idx : nat),
    P c -> live c = true -> target_seq' c = Ok tok ->
    probs = fst (step tok (states c)) ->
    successor' c probs st idx = Ok s -> P s.

Lemma expand_Forall (c : candidate State) (cs : beam) :
  P c -> expand' c = Ok cs -> Forall P cs.
Proof.
  intros Hc H. apply Forall_forall. intros s Hs.
  destruct (expand_In c s cs H Hs) as [[_ ->] | [Hl [tok [idx [Ht [_ Hsucc]]]]]];
    [assumption |].
  eapply P_successor; eauto.
Qed.

Lemma new_candidates_Forall (top pool : beam) :
  Forall P top -> new_candidates' top = Ok pool -> Forall P pool.
Proof.
  intros HP H. apply Forall_forall. intros s Hs.
  destruct (new_candidates_In _ _ _ H Hs) as [c [cs [Hc [He Hin]]]].
  rewrite Forall_forall in HP.
  pose proof (expand_Forall c cs (HP c Hc) He) as Hcs.
  rewrite Forall_forall in Hcs. auto.
Qed.

Lemma generation_Forall (top top' : beam) :
  Forall P top -> generation' top = Ok top' -> Forall P top'.
Proof.
  intros HP H. unfold generation in H. inv_bind H. inv_Ok H.
  pose proof (new_candidates_Forall _ _ HP E) as Hpool.
  rewrite Forall_forall in *. intros s Hs. apply Hpool.
  unfold prune in Hs. apply py_take_incl in Hs.
  now apply sorted_In in Hs.
Qed.

Hypothesis P_initial : forall st : State, P (initial_candidate' st).

Lemma reach_Forall (input_seq : Input) (n : nat) (top : beam) :
  reach' input_seq n top -> Forall P top.
Proof.
  induction 1 as [| n top top' _ IH _ _ Hgen].
  - constructor; [apply P_initial | constructor].
  - eapply generation_Forall; eassumption.
Qed.
End CandidateInvariant.

(** *** The loop *)

Lemma loop_generations (fuel : nat) (top : beam) (live_k dead_k done : nat) :
  (done <= fst (loop' fuel top live_k dead_k done) <= done + fuel)%nat.
Proof.
  revert top live_k dead_k done.
  induction fuel as [| fuel IH]; intros top live_k dead_k done; simpl.
  - lia.
  - destruct (negb (running' live_k dead_k)); simpl; [lia |].
    destruct (generation' top) as [top' | e]; simpl; [| lia].
    specialize (IH top' (count_live top') (count_dead top') (S done)). lia.
Qed.

Lemma count_initial (st : State) :
  count_live [initial_candidate' st] = 1%nat /\
  count_dead [initial_candidate' st] = 0%nat.
Proof. split; reflexivity. Qed.

(** What the loop ends with is a beam it holds after that many
    generations. *)
Lemma loop_reach (input_seq : Input) (fuel : nat) (top top' : beam)
      (done n : nat) :
  reach' input_seq done top ->
  (Z.of_nat (done + fuel) <= Z.max 0 max_len_target)%Z ->
  loop' fuel top (count_live top) (count_dead top) done = (n, Ok top') ->
  reach' input_seq n top'.
Proof.
  revert top done. induction fuel as [| fuel IH]; intros top done Hr Hf; simpl.
  - intros H. injection H as <- <-. assumption.
  - destruct (running' (count_live top) (count_dead top)) eqn:Hrun; simpl.
    + destruct (generation' top) as [top1 | e] eqn:Hgen; [| discriminate].
      apply IH; [| lia].
      eapply reach_generation; eauto. lia.
    + intros H. injection H as <- <-. assumption.
Qed.

Lemma search_reach (input_seq : Input) (n : nat) (top : beam) :
  search' input_seq = (n, Ok top) -> reach' input_seq n top.
Proof.
  unfold search. intros H.
  eapply loop_reach with (done := 0%nat); [constructor | | exact H].
  simpl. lia.
Qed.

Lemma winner_reach (input_seq : Input) (c : candidate State) :
  winner' input_seq = Ok c ->
  exists (n : nat) (top : beam), reach' input_seq n top /\ py_get top 0 = Ok c.
Proof.
  unfold winner. intros H. inv_bind H.
  destruct (search' input_seq) as [n r] eqn:Es. simpl in E. subst r.
  exists n, a. split; [| assumption].
  now apply search_reach.
Qed.

(** *** The step budget *)

(** C1.  For every input, every beam width and every model, the decode
    loop runs at most [max_len_target] generations ([range] of a
    non-positive number is empty); the model has no way to keep the loop
    going. *)
Theorem generations_bounded (input_seq : Input) :
  (Z.of_nat (generations encode step argsort bpe_target max_len_target
                         beam_width input_seq)
   <= Z.max 0 max_len_target)%Z.
Proof.
  unfold generations, search.
  pose proof (loop_generations (Z.to_nat max_len_target)
                [initial_candidate' (encode input_seq)] 1 0 0) as H.
  lia.
Qed.

(** *** Pruning *)

(** While the loop runs the beam width is positive. *)
Lemma running_width (live_k dead_k : nat) :
  running' live_k dead_k = true -> (0 < beam_width)%Z.
Proof.
  unfold running. intros H. apply andb_prop in H. destruct H as [_ H].
  apply Z.ltb_lt in H. lia.
Qed.

Lemma generation_length (top top' : beam) :
  (0 <= beam_width)%Z -> generation' top = Ok top' ->
  (Z.of_nat (List.length top') <= beam_width)%Z.
Proof.
  intros Hw H. unfold generation in H. inv_bind H. inv_Ok H.
  now apply py_take_length.
Qed.

(** [sorted] orders a pool whose scores are ordered numbers. *)
Lemma sorted_pool (pool : beam) :
  Forall (fun c => ordered (score c)) pool ->
  StronglySorted score_le (sorted (@score_lt State) pool).
Proof.
  apply sorted_StronglySorted; unfold score_lt, score_le.
  - intros x y _ _. apply NumFacts.ltb_true_leb.
  - intros x y Hx Hy. now apply NumFacts.ltb_false_leb.
  - intros x y z. apply NumFacts.leb_trans.
Qed.

Lemma nth_error_Forall (A : Type) (P : A -> Prop) (l : list A) (i : nat) (x : A) :
  Forall P l -> nth_error l i = Some x -> P x.
Proof.
  intros H E. rewrite Forall_forall in H. eapply H, nth_error_In, E.
Qed.

Section NonNegative.
Hypothesis probs_nonneg : nonneg_model step.

(** With probabilities that are not negative every score is an ordered
    number: never NaN, never [-inf]. *)
Lemma reach_ordered (input_seq : Input) (n : nat) (top : beam) :
  reach' input_seq n top -> Forall (fun c => ordered (score c)) top.
Proof.
  apply reach_Forall with (P := fun c => ordered (score c)).
  - intros c s probs st tok idx Hc _ _ -> Hs.
    apply successor_Ok in Hs. destruct Hs as [piece [p [_ [Hp ->]]]].
    simpl. apply NumFacts.sub_log_ordered; [assumption |].
    apply (nth_error_Forall _ _ _ _ _ (probs_nonneg tok (states c)) Hp).
  - intros st. exact NumFacts.ordered_zero.
Qed.

Lemma pool_ordered (input_seq : Input) (n : nat) (top pool : beam) :
  reach' input_seq n top -> new_candidates' top = Ok pool ->
  Forall (fun c => ordered (score c)) pool.
Proof.
  intros Hr. apply new_candidates_Forall; [| eapply reach_ordered, Hr].
  intros c s probs st tok idx Hc _ _ -> Hs.
  apply successor_Ok in Hs. destruct Hs as [piece [p [_ [Hp ->]]]].
  simpl. apply NumFacts.sub_log_ordered; [assumption |].
  apply (nth_error_Forall _ _ _ _ _ (probs_nonneg tok (states c)) Hp).
Qed.

Lemma reach_sorted (input_seq : Input) (n : nat) (top : beam) :
  reach' input_seq n top -> StronglySorted score_le top.
Proof.
  intros H. destruct H as [| n top top' Hr _ _ Hgen].
  - repeat constructor.
  - unfold generation in Hgen. inv_bind Hgen. inv_Ok Hgen.
    apply StronglySorted_py_take, sorted_pool.
    eapply pool_ordered; eassumption.
Qed.
End NonNegative.

(** C2 (as the code has it).  After every pruning step (every generation
    after the initial beam) the beam holds at most [beam_width] candidates,
    for every input and every model; and, for a model whose probabilities
    are not negative, the beam is sorted ascending by score. *)
Theorem beam_bounded_sorted (input_seq : Input) (n : nat) (top : beam) :
  reach' input_seq (S n) top ->
  (Z.of_nat (List.length top) <= beam_width)%Z /\
  (nonneg_model step -> StronglySorted score_le top).
Proof.
  intros H. split.
  - inversion H as [| n' top0 top' _ _ Hrun Hgen]; subst.
    apply running_width in Hrun.
    apply (generation_length top0); [lia | assumption].
  - intros Hnn. now apply (reach_sorted Hnn input_seq (S n)).
Qed.

(** *** Scores *)

Section UnitInterval.
Hypothesis probs_unit : unit_model step.

Lemma unit_nonneg : nonneg_model step.
Proof.
  intros tok st. eapply Forall_impl; [| apply (probs_unit tok st)].
  simpl. tauto.
Qed.

Lemma reach_nonneg (input_seq : Input) (n : nat) (top : beam) :
  reach' input_seq n top -> Forall (fun c => nonneg (score c)) top.
Proof.
  apply reach_Forall with (P := fun c => nonneg (score c)).
  - intros c s probs st tok idx Hc _ _ -> Hs.
    apply successor_Ok in Hs. destruct Hs as [piece [p [_ [Hp ->]]]].
    pose proof (nth_error_Forall _ _ _ _ _ (probs_unit tok (states c)) Hp)
      as [Hp0 Hp1].
    simpl. now apply NumFacts.sub_log_nonneg.
  - intros st. reflexivity.
Qed.

(** C7.  For a model whose probabilities lie in [0, 1], every candidate
    the loop holds has a score of at least [0.0], and everything its
    expansion puts into the pool (the candidate itself when it is dead,
    a successor when it is live) has a score at least as large as its
    own: a step adds [-log p >= 0]. *)
Theorem score_monotone (input_seq : Input) (n : nat) (top : beam)
        (c : candidate State) :
  reach' input_seq n top -> In c top ->
  leb zero (score c) = true /\
  forall (cs : beam) (s : candidate State),
    expand' c = Ok cs -> In s cs -> leb (score c) (score s) = true.
Proof.
  intros Hr Hc.
  pose proof (reach_nonneg input_seq n top Hr) as Hnn.
  rewrite Forall_forall in Hnn. specialize (Hnn c Hc).
  split; [exact Hnn |].
  intros cs s He Hs.
  pose proof (NumFacts.nonneg_ordered _ Hnn) as Hord.
  destruct (expand_In c s cs He Hs)
    as [[_ ->] | [_ [tok [idx [_ [_ Hsucc]]]]]].
  - now apply NumFacts.leb_refl.
  - apply successor_Ok in Hsucc. destruct Hsucc as [piece [p [_ [Hp ->]]]].
    pose proof (nth_error_Forall _ _ _ _ _ (probs_unit tok (states c)) Hp)
      as [Hp0 Hp1].
    simpl. now apply NumFacts.sub_log_ge.
Qed.
End UnitInterval.

(** C8 (as the code has it).  For a model whose probabilities are not
    negative: when a live candidate of the beam is expanded and a selected
    id has probability exactly zero, the successor for that id has score
    [+inf] (not NaN) and is a member of the pool; the pruning step places
    it after every candidate of finite score: when it is kept in the
    pruned beam every pool member of finite score is kept too, and in the
    pruned beam no candidate with a finite score stands after a candidate
    with score [+inf]. *)
Theorem zero_probability_successor
        (input_seq : Input) (n : nat) (top pool : beam) (c : candidate State)
        (tok idx : nat) (p : Q) :
  nonneg_model step ->
  reach' input_seq n top -> In c top -> live c = true ->
  new_candidates' top = Ok pool ->
  target_seq' c = Ok tok ->
  In idx (selected' (fst (step tok (states c)))) ->
  nth_error (fst (step tok (states c))) idx = Some p -> p == 0 ->
  exists s : candidate State,
    successor' c (fst (step tok (states c))) (snd (step tok (states c))) idx
    = Ok s /\
    idx_sequence s = idx_sequence c ++ [idx] /\
    score s = PInf /\
    In s pool /\
    (In s (prune' pool) ->
     forall f : candidate State,
       In f pool -> is_finite (score f) = true -> In f (prune' pool)) /\
    forall (pre post : beam) (x : candidate State),
      prune' pool = pre ++ x :: post ->
      score x = PInf ->
      Forall (fun y => is_finite (score y) = false) post.
Proof.
  intros Hnn Hr Hc Hl Hpool Ht Hidx Hp Hp0.
  assert (Hex : exists cs, expand' c = Ok cs).
  { clear - Hpool Hc. revert pool Hpool.
    induction top as [| c' top' IH]; simpl; intros pool Hpool; [contradiction |].
    inv_bind Hpool. inv_bind Hpool.
    destruct Hc as [-> | Hc]; [now exists a | eapply IH; eauto]. }
  destruct Hex as [cs He].
  destruct (expand_live c cs Hl He) as [tok' [Ht' Hss]].
  rewrite Ht in Ht'. inv_Ok Ht'.
  assert (Hs : exists s,
             successor' c (fst (step tok' (states c)))
                        (snd (step tok' (states c))) idx = Ok s /\ In s cs).
  { apply successors_Ok in Hss. clear - Hss Hidx.
    induction Hss as [| i s ids ss Hs _ IH]; simpl in *; [contradiction |].
    destruct Hidx as [-> | Hidx].
    - exists s. auto.
    - destruct (IH Hidx) as [s' [Hs' Hin]]. exists s'. auto. }
  destruct Hs as [s [Hs Hin]]. exists s.
  pose proof (pool_ordered Hnn input_seq n top pool Hr Hpool) as Hord.
  pose proof (reach_ordered Hnn input_seq n top Hr) as Htop.
  rewrite Forall_forall in Htop.
  assert (Hscore : score s = PInf /\ idx_sequence s = idx_sequence c ++ [idx]).
  { apply successor_Ok in Hs. destruct Hs as [piece [p' [_ [Hp' ->]]]].
    rewrite Hp in Hp'. inv_Ok Hp'. simpl. split; [| reflexivity].
    apply NumFacts.sub_log_zero; auto. }
  destruct Hscore as [Hinf Hseq].
  assert (Hsp : In s pool) by (eapply new_candidates_incl; eauto).
  pose proof (sorted_pool pool Hord) as Hsorted.
  repeat split; auto.
  - intros Hkept f Hf Hfin.
    assert (Hm : exists m : nat,
               prune' pool = firstn m (sorted (@score_lt State) pool)).
    { unfold prune, py_take. destruct (beam_width <? 0)%Z; eexists; reflexivity. }
    destruct Hm as [m Hm]. rewrite Hm in *.
    apply (sorted_In _ (@score_lt State)) in Hf.
    rewrite <- (firstn_skipn m (sorted (@score_lt State) pool)) in Hf, Hsorted.
    apply in_app_or in Hf. destruct Hf as [Hf | Hf]; [exact Hf | exfalso].
    pose proof (StronglySorted_app_lr _ _ _ _ _ _ Hsorted Hkept Hf) as Hle.
    unfold score_le in Hle. rewrite Hinf in Hle.
    apply NumFacts.inf_leb_finite in Hle. congruence.
  - intros pre post x Hsplit Hx.
    pose proof (StronglySorted_py_take _ _ beam_width _ Hsorted) as Hpruned.
    fold (prune' pool) in Hpruned. rewrite Hsplit in Hpruned.
    apply StronglySorted_after in Hpruned.
    eapply Forall_impl; [| exact Hpruned].
    intros y Hy. unfold score_le in Hy. rewrite Hx in Hy.
    now apply NumFacts.inf_leb_finite.
Qed.

(** *** The start token *)

Lemma reach_start (input_seq : Input) (n : nat) (top : beam) :
  reach' input_seq n top ->
  Forall (fun c =>
            (exists ids, idx_sequence c = start_token_idx bpe_target :: ids) /\
            (exists pieces,
                token_sequence c = start_token bpe_target :: pieces)) top.
Proof.
  apply reach_Forall
    with (P := fun c =>
            (exists ids, idx_sequence c = start_token_idx bpe_target :: ids) /\
            (exists pieces,
                token_sequence c = start_token bpe_target :: pieces)).
  - intros c s probs st tok idx [[ids Hi] [ps Hp]] _ _ _ Hs.
    apply successor_Ok in Hs. destruct Hs as [piece [p [_ [_ ->]]]].
    simpl. rewrite Hi, Hp. split; eexists; reflexivity.
  - intros st. split; eexists; reflexivity.
Qed.

(** C10.  Whenever the call gets as far as handing a sequence to
    [DecodePieces], that sequence begins with the start token: the id
    sequence of the winning candidate begins with the start id, its pieces
    begin with the start piece, and (the two ids being different) it is not
    the stop token alone. *)
Theorem decoded_starts_with_start_token
        (input_seq : Input) (pieces : list string) :
  decoded_pieces encode step argsort bpe_target max_len_target beam_width
                 input_seq = Ok pieces ->
  (exists rest, pieces = start_token bpe_target :: rest) /\
  exists c : candidate State,
    winner' input_seq = Ok c /\
    token_sequence c = pieces /\
    (exists ids, idx_sequence c = start_token_idx bpe_target :: ids) /\
    (start_token_idx bpe_target <> stop_token_idx bpe_target ->
     idx_sequence c <> [stop_token_idx bpe_target]).
Proof.
  unfold decoded_pieces. intros H. inv_bind H. inv_Ok H.
  destruct (winner_reach input_seq a E) as [n [top [Hr Hget]]].
  apply py_get_In in Hget.
  pose proof (reach_start input_seq n top Hr) as Hall.
  rewrite Forall_forall in Hall.
  destruct (Hall a Hget) as [[ids Hi] [ps Hp]].
  split; [now exists ps |].
  exists a. repeat split; auto.
  - now exists ids.
  - intros Hne Heq. rewrite Hi in Heq. injection Heq as Heq _. contradiction.
Qed.

(** *** Configurations that are not positive *)

(** C5 (as the code has it).  With [beam_width <= 0] or
    [max_len_target <= 0] the call is not rejected: the loop body never
    runs, and the pieces of the initial candidate, the start piece alone,
    are decoded. *)
Theorem nonpositive_configuration (input_seq : Input) :
  (beam_width <= 0)%Z \/ (max_len_target <= 0)%Z ->
  search' input_seq = (0%nat, Ok [initial_candidate' (encode input_seq)]) /\
  decode_beam_search encode step argsort DecodePieces bpe_target
                     max_len_target beam_width input_seq
  = Ok (DecodePieces [start_token bpe_target]).
Proof.
  intros H.
  assert (Hs : search' input_seq
               = (0%nat, Ok [initial_candidate' (encode input_seq)])).
  { unfold search. destruct H as [H | H].
    - destruct (Z.to_nat max_len_target); simpl; [reflexivity |].
      unfold running. simpl.
      destruct (Z.ltb_spec 0 beam_width); [lia | reflexivity].
    - replace (Z.to_nat max_len_target) with 0%nat by lia. reflexivity. }
  split; [exact Hs |].
  unfold decode_beam_search, decoded_pieces, winner. now rewrite Hs.
Qed.

(** *** Calls that complete *)

Section WellFormed.
Hypothesis argsort_ok : argsort_spec argsort.
Hypothesis vocabulary : vocabulary_sized step bpe_target.
Hypothesis tokens_nonempty : tokens bpe_target <> [].

Lemma selected_lt (probs : list Q) (idx : nat) :
  In idx (selected' probs) -> (idx < List.length probs)%nat.
Proof.
  unfold selected. intros H. apply py_take_incl in H.
  destruct (argsort_ok (map Qopp probs)) as [Hperm _].
  apply (Permutation_in _ Hperm) in H. apply in_seq in H.
  rewrite length_map in H. lia.
Qed.

Lemma selected_nonempty (probs : list Q) :
  (0 < beam_width)%Z -> probs <> [] -> selected' probs <> [].
Proof.
  intros Hw Hp. unfold selected. rewrite py_take_nonneg by lia.
  destruct (argsort_ok (map Qopp probs)) as [Hperm _].
  apply Permutation_length in Hperm.
  rewrite length_seq, length_map in Hperm.
  destruct (argsort (map Qopp probs)) as [| i l].
  - destruct probs; [congruence | discriminate].
  - destruct (Z.to_nat beam_width) eqn:E; [lia | discriminate].
Qed.

Lemma successors_total (c : candidate State) (tok : nat) (ids : list nat) :
  Forall (fun i => i < List.length (fst (step tok (states c))))%nat ids ->
  exists ss : beam,
    successors' c (fst (step tok (states c))) (snd (step tok (states c))) ids
    = Ok ss /\
    List.length ss = List.length ids /\
    Forall (fun s => idx_sequence s <> []) ss.
Proof.
  induction 1 as [| idx ids Hidx _ [ss [Hss [Hlen Hne]]]]; simpl.
  - exists []. repeat split; constructor.
  - destruct (py_get_lt _ (fst (step tok (states c))) idx Hidx) as [p Hp].
    rewrite (vocabulary tok (states c)) in Hidx.
    destruct (py_get_lt _ (tokens bpe_target) idx Hidx) as [piece Hpiece].
    unfold successor. rewrite Hpiece, Hp. simpl. rewrite Hss. simpl.
    eexists. split; [reflexivity |]. split; [simpl; congruence |].
    constructor; [| assumption].
    simpl. intros E. now apply app_eq_nil in E.
Qed.

Lemma target_seq_total (c : candidate State) :
  (2 <= max_len_target)%Z -> idx_sequence c <> [] ->
  exists tok : nat, target_seq' c = Ok tok.
Proof.
  intros Hm Hne. unfold target_seq.
  destruct (Z.ltb_spec (max_len_target - 1) 0); [lia |].
  destruct (exists_last Hne) as [l [x ->]]. rewrite py_last_app. simpl.
  destruct (Z.eqb_spec (max_len_target - 1) 0); [lia |].
  now exists x.
Qed.

Lemma distribution_nonempty (tok : nat) (st : State) :
  fst (step tok st) <> [].
Proof.
  intros E. apply (f_equal (@List.length Q)) in E.
  rewrite vocabulary in E. destruct (tokens bpe_target); [congruence | discriminate].
Qed.

Lemma expand_total (c : candidate State) :
  (2 <= max_len_target)%Z -> (0 < beam_width)%Z -> idx_sequence c <> [] ->
  exists cs : beam,
    expand' c = Ok cs /\ cs <> [] /\ Forall (fun s => idx_sequence s <> []) cs.
Proof.
  intros Hm Hw Hne. destruct (live c) eqn:Hl.
  - destruct (target_seq_total c Hm Hne) as [tok Ht].
    destruct (successors_total c tok (selected' (fst (step tok (states c)))))
      as [ss [Hss [Hlen Hall]]].
    { apply Forall_forall. intros i. apply selected_lt. }
    exists ss. unfold expand. rewrite Hl, Ht. simpl.
    destruct (step tok (states c)) as [probs st] eqn:Es. simpl in *.
    repeat split; auto.
    intros ->.
    apply (selected_nonempty probs Hw); [| now destruct (selected' probs)].
    pose proof (distribution_nonempty tok (states c)) as Hd.
    now rewrite Es in Hd.
  - exists [c]. rewrite (expand_dead c Hl).
    repeat split; [discriminate | now constructor].
Qed.

Lemma new_candidates_total (top : beam) :
  (2 <= max_len_target)%Z -> (0 < beam_width)%Z ->
  Forall (fun s => idx_sequence s <> []) top ->
  exists pool : beam,
    new_candidates' top = Ok pool /\
    (top <> [] -> pool <> []) /\
    Forall (fun s => idx_sequence s <> []) pool.
Proof.
  intros Hm Hw. induction 1 as [| c top Hc _ [pool [Hpool [_ Hall]]]]; simpl.
  - exists []. repeat split; auto.
  - destruct (expand_total c Hm Hw Hc) as [cs [He [Hne Hcs]]].
    exists (cs ++ pool). rewrite He, Hpool. simpl.
    repeat split.
    + intros _ E. apply app_eq_nil in E. tauto.
    + apply Forall_app. auto.
Qed.

Lemma generation_total (top : beam) :
  (2 <= max_len_target)%Z -> (0 < beam_width)%Z ->
  top <> [] -> Forall (fun s => idx_sequence s <> []) top ->
  exists top' : beam,
    generation' top = Ok top' /\
    top' <> [] /\ Forall (fun s => idx_sequence s <> []) top'.
Proof.
  intros Hm Hw Hne Hall.
  destruct (new_candidates_total top Hm Hw Hall) as [pool [Hpool [Hp Hpa]]].
  exists (prune' pool). unfold generation. rewrite Hpool. simpl.
  repeat split.
  - unfold prune. rewrite py_take_nonneg by lia.
    pose proof (sorted_length _ (@score_lt State) pool) as Hlen.
    destruct (sorted score_lt pool) as [| x l].
    + destruct pool; [now elim Hp | discriminate].
    + destruct (Z.to_nat beam_width) eqn:E; [lia | discriminate].
  - rewrite Forall_forall in *. intros s Hs. apply Hpa.
    unfold prune in Hs. apply py_take_incl in Hs. now apply sorted_In in Hs.
Qed.

Lemma loop_total (fuel : nat) (top : beam) (live_k dead_k done : nat) :
  (fuel = 0%nat \/ (2 <= max_len_target)%Z) ->
  top <> [] -> Forall (fun s => idx_sequence s <> []) top ->
  exists (n : nat) (top' : beam),
    loop' fuel top live_k dead_k done = (n, Ok top') /\ top' <> [].
Proof.
  revert top live_k dead_k done.
  induction fuel as [| fuel IH]; intros top live_k dead_k done Hm Hne Hall;
    simpl.
  - now exists done, top.
  - destruct Hm as [Hm | Hm]; [discriminate |].
    destruct (running' live_k dead_k) eqn:Hrun; simpl;
      [| now exists done, top].
    apply running_width in Hrun.
    destruct (generation_total top Hm Hrun Hne Hall) as [top' [Hg [Hn Ha]]].
    rewrite Hg. apply IH; auto.
Qed.

Lemma winner_completes (input_seq : Input) :
  max_len_target <> 1%Z ->
  exists c : candidate State, winner' input_seq = Ok c.
Proof.
  intros Hm.
  destruct (loop_total (Z.to_nat max_len_target)
              [initial_candidate' (encode input_seq)] 1 0 0)
    as [n [top [Hloop Hne]]].
  - destruct (Z.to_nat max_len_target) eqn:E; [now left | right; lia].
  - discriminate.
  - repeat constructor. discriminate.
  - destruct top as [| c top]; [congruence |].
    exists c. unfold winner, search. now rewrite Hloop.
Qed.

(** C6 (as the code has it).  The decoder looks at the values of a
    distribution only to order and to score them: whatever rationals
    the model returns, negative ones or a vector that does not sum to
    one, a call completes and returns a decoded string, and never raises,
    under the hypotheses of this section and one on the step budget:
    [np.argsort] returns the indices in ascending order of the keys, every
    distribution has one entry per target token, the target vocabulary is
    not empty, and [max_len_target] is not 1. *)
Theorem decode_completes (input_seq : Input) :
  max_len_target <> 1%Z ->
  exists (c : candidate State),
    winner' input_seq = Ok c /\
    decode_beam_search encode step argsort DecodePieces bpe_target
                       max_len_target beam_width input_seq
    = Ok (DecodePieces (token_sequence c)).
Proof.
  intros Hm. destruct (winner_completes input_seq Hm) as [c Hw].
  exists c. split; [exact Hw |].
  unfold decode_beam_search, decoded_pieces. now rewrite Hw.
Qed.
End WellFormed.

(** *** The selected ids *)

Lemma py_take_firstn (A : Type) (n : Z) (l : list A) :
  exists m : nat, py_take n l = firstn m l.
Proof. unfold py_take. destruct (n <? 0)%Z; eexists; reflexivity. Qed.

(** The ids of the successors of a live candidate are the selected ids,
    in their order. *)
Lemma expand_ids (c : candidate State) (cs : beam) (tok : nat) :
  live c = true -> target_seq' c = Ok tok -> expand' c = Ok cs ->
  map idx_sequence cs
  = map (fun i => idx_sequence c ++ [i]) (selected' (fst (step tok (states c)))).
Proof.
  intros Hl Ht He. destruct (expand_live c cs Hl He) as [tok' [Ht' Hss]].
  rewrite Ht in Ht'. inv_Ok Ht'. clear He.
  apply successors_Ok in Hss.
  induction Hss as [| i s ids ss Hs _ IH]; simpl; [reflexivity |].
  apply successor_Ok in Hs. destruct Hs as [piece [p [_ [_ ->]]]].
  simpl. now rewrite IH.
Qed.

Section Selection.
Hypothesis argsort_ok : argsort_spec argsort.
Variable probs : list Q.

Lemma selected_NoDup : NoDup (selected' probs).
Proof.
  unfold selected.
  destruct (py_take_firstn _ beam_width (argsort (map Qopp probs)))
    as [m ->].
  destruct (argsort_ok (map Qopp probs)) as [Hperm _].
  assert (Hnd : NoDup (argsort (map Qopp probs))).
  { apply (Permutation_NoDup (Permutation_sym Hperm)), seq_NoDup. }
  rewrite <- (firstn_skipn m) in Hnd. now apply NoDup_app_remove_r in Hnd.
Qed.

Lemma selected_length :
  (0 <= beam_width)%Z ->
  List.length (selected' probs)
  = Nat.min (Z.to_nat beam_width) (List.length probs).
Proof.
  intros Hw. unfold selected. rewrite py_take_nonneg by assumption.
  destruct (argsort_ok (map Qopp probs)) as [Hperm _].
  apply Permutation_length in Hperm.
  rewrite length_seq, length_map in Hperm.
  now rewrite length_firstn, Hperm.
Qed.

(** No id that was left out is more probable than a selected one. *)
Lemma selected_top (i j : nat) :
  In i (selected' probs) -> (j < List.length probs)%nat ->
  ~ In j (selected' probs) -> key probs j <= key probs i.
Proof.
  unfold selected.
  destruct (py_take_firstn _ beam_width (argsort (map Qopp probs)))
    as [m ->].
  destruct (argsort_ok (map Qopp probs)) as [Hperm Hs].
  intros Hi Hj Hout.
  assert (Hin : In j (argsort (map Qopp probs))).
  { apply (Permutation_in _ (Permutation_sym Hperm)), in_seq.
    rewrite length_map. lia. }
  rewrite <- (firstn_skipn m) in Hin, Hs.
  apply in_app_or in Hin. destruct Hin as [Hin | Hin]; [contradiction |].
  pose proof (StronglySorted_app_lr _ _ _ _ i j Hs Hi Hin) as Hle.
  simpl in Hle. rewrite !ArgsortFacts.key_opp in Hle.
  apply Qopp_le_compat in Hle. now rewrite !Qopp_involutive in Hle.
Qed.

(** Under a stable [argsort] a tie goes to the lower id. *)
Lemma selected_tie (i j : nat) :
  argsort_stable_spec argsort ->
  (i < j)%nat -> In j (selected' probs) ->
  key probs i == key probs j -> In i (selected' probs).
Proof.
  intros Hstable Hij Hj Heq.
  pose proof (selected_lt argsort_ok probs j Hj) as Hlt.
  unfold selected in *.
  destruct (py_take_firstn _ beam_width (argsort (map Qopp probs)))
    as [m Hm].
  rewrite Hm in *.
  destruct (Hstable (map Qopp probs)) as [Hperm Hs].
  assert (Hin : In i (argsort (map Qopp probs))).
  { apply (Permutation_in _ (Permutation_sym Hperm)), in_seq.
    rewrite length_map. lia. }
  rewrite <- (firstn_skipn m) in Hin, Hs.
  apply in_app_or in Hin. destruct Hin as [Hin | Hin]; [assumption |].
  pose proof (StronglySorted_app_lr _ _ _ _ j i Hs Hj Hin) as Hlex.
  unfold lex in Hlex. rewrite !ArgsortFacts.key_opp in Hlex.
  destruct Hlex as [Hlex | [_ Hlex]]; [| lia].
  rewrite Heq in Hlex. now apply Qlt_irrefl in Hlex.
Qed.

End Selection.

(** *** A beam of width one *)

Lemma loop_stopped (fuel : nat) (top : beam) (live_k dead_k done : nat) :
  running' live_k dead_k = false ->
  loop' fuel top live_k dead_k done = (done, Ok top).
Proof. intros H. destruct fuel; simpl; [| rewrite H]; reflexivity. Qed.

(** The head of [np.argsort(-probs)] is an arg-max of [probs]. *)
Lemma first_selected_argmax (probs : list Q) :
  argsort_spec argsort -> probs <> [] ->
  is_argmax probs (first_selected argsort probs).
Proof.
  intros Hspec Hne. unfold first_selected.
  destruct (Hspec (map Qopp probs)) as [Hperm Hs].
  rewrite length_map in Hperm.
  destruct (argsort (map Qopp probs)) as [| i l].
  - apply Permutation_length in Hperm. rewrite length_seq in Hperm.
    destruct probs; [congruence | discriminate].
  - simpl. split.
    + assert (Hi : In i (seq 0 (List.length probs))).
      { apply (Permutation_in _ Hperm). now left. }
      apply in_seq in Hi. lia.
    + intros j Hj.
      assert (Hin : In j (i :: l)).
      { apply (Permutation_in _ (Permutation_sym Hperm)), in_seq. lia. }
      apply StronglySorted_inv in Hs. destruct Hs as [_ Hi].
      destruct Hin as [<- | Hin]; [apply Qle_refl |].
      rewrite Forall_forall in Hi. specialize (Hi j Hin). simpl in Hi.
      rewrite !ArgsortFacts.key_opp in Hi.
      apply Qopp_le_compat in Hi. now rewrite !Qopp_involutive in Hi.
Qed.

(** The pieces of a candidate are the start piece and the pieces of its
    ids. *)
Lemma reach_pieces (input_seq : Input) (n : nat) (top : beam) :
  reach' input_seq n top ->
  Forall (fun c =>
            exists ids pieces,
              idx_sequence c = start_token_idx bpe_target :: ids /\
              token_sequence c = start_token bpe_target :: pieces /\
              Forall2 (fun i piece => nth_error (tokens bpe_target) i = Some piece)
                      ids pieces) top.
Proof.
  apply reach_Forall
    with (P := fun c =>
            exists ids pieces,
              idx_sequence c = start_token_idx bpe_target :: ids /\
              token_sequence c = start_token bpe_target :: pieces /\
              Forall2 (fun i piece => nth_error (tokens bpe_target) i = Some piece)
                      ids pieces).
  - intros c s probs st tok idx [ids [ps [Hi [Hp Hall]]]] _ _ _ Hs.
    apply successor_Ok in Hs. destruct Hs as [piece [p [Hpiece [_ ->]]]].
    simpl. exists (ids ++ [idx]), (ps ++ [piece]). rewrite Hi, Hp.
    repeat split. apply Forall2_app; [assumption |]. now repeat constructor.
  - intros st. exists [], []. repeat split. constructor.
Qed.

Section WidthOne.
Hypothesis width_one : beam_width = 1%Z.

Lemma running_one (live_k dead_k : nat) :
  running' live_k dead_k = negb (live_k =? 0)%nat && (dead_k =? 0)%nat.
Proof.
  unfold running. rewrite width_one. f_equal.
  destruct dead_k; simpl; [reflexivity |].
  apply Z.ltb_ge. lia.
Qed.

Lemma selected_one (probs : list Q) :
  selected' probs = firstn 1 (argsort (map Qopp probs)).
Proof. unfold selected. now rewrite width_one. Qed.

Lemma prune_one (pool : beam) :
  prune' pool = firstn 1 (sorted score_lt pool).
Proof. unfold prune. now rewrite width_one. Qed.

(** The loop on a single live candidate walks the greedy path. *)
Lemma loop_greedy (fuel : nat) :
  forall (c w : candidate State) (seq0 : list nat) (last_idx done n : nat)
         (top : beam),
    live c = true -> idx_sequence c = seq0 ++ [last_idx] ->
    loop' fuel [c] 1 0 done = (n, Ok top) -> py_get top 0 = Ok w ->
    idx_sequence w
    = greedy_steps step bpe_target (first_selected argsort) fuel (states c)
                   (idx_sequence c) last_idx.
Proof.
  induction fuel as [| fuel IH];
    intros c w seq0 last_idx done n top Hl Hseq Hloop Hw.
  - simpl in *. inv_Ok Hloop. simpl in Hw. now inv_Ok Hw.
  - simpl in Hloop. rewrite running_one in Hloop. simpl in Hloop.
    unfold generation in Hloop. simpl in Hloop.
    unfold expand in Hloop. rewrite Hl in Hloop. simpl in Hloop.
    unfold target_seq in Hloop. rewrite Hseq, py_last_app in Hloop.
    destruct (max_len_target - 1 <? 0)%Z; [discriminate |].
    simpl in Hloop.
    destruct (max_len_target - 1 =? 0)%Z; [discriminate |].
    simpl in Hloop. simpl.
    destruct (step last_idx (states c)) as [probs st] eqn:Es.
    rewrite selected_one in Hloop.
    replace (first_selected argsort probs)
      with (hd 0%nat (argsort (map Qopp probs))) by reflexivity.
    destruct (argsort (map Qopp probs)) as [| idx rest].
    + simpl in Hloop. rewrite prune_one in Hloop. simpl in Hloop.
      rewrite loop_stopped in Hloop by reflexivity.
      inv_Ok Hloop. discriminate.
    + simpl in Hloop.
      destruct (successor bpe_target c probs st idx) as [s | e] eqn:Hs;
        [| discriminate].
      simpl in Hloop.
      apply successor_Ok in Hs. destruct Hs as [piece [p [_ [_ ->]]]].
      rewrite prune_one in Hloop.
      simpl in Hloop. unfold count_live, count_dead in Hloop.
      simpl in Hloop. simpl hd.
      destruct (idx =? stop_token_idx bpe_target)%nat; simpl in Hloop.
      * rewrite loop_stopped in Hloop by (now rewrite running_one).
        inv_Ok Hloop. simpl in Hw. now inv_Ok Hw.
      * match type of Hloop with
        | context [ [?s] ] =>
            apply (IH s w (idx_sequence c) idx (S done) n top);
            [reflexivity | reflexivity | exact Hloop | exact Hw]
        end.
Qed.

(** C9.  With [beam_width = 1] the decoder is greedy decoding: the id
    sequence of the winning candidate is the sequence that appends, at
    every step, the arg-max token that heads [np.argsort(-probs)], until
    the stop token or the step budget; its pieces are the start piece
    and the pieces of these ids.  The call returns such a sequence
    whenever the distributions have one entry per target token and
    [max_len_target] is not 1. *)
Theorem greedy_equivalence (input_seq : Input) :
  argsort_spec argsort ->
  (forall probs : list Q,
      probs <> [] -> is_argmax probs (first_selected argsort probs)) /\
  (forall c : candidate State,
      winner' input_seq = Ok c ->
      idx_sequence c
      = greedy_decode encode step bpe_target max_len_target
                      (first_selected argsort) input_seq /\
      exists pieces : list string,
        token_sequence c = start_token bpe_target :: pieces /\
        Forall2 (fun i piece => nth_error (tokens bpe_target) i = Some piece)
                (tl (idx_sequence c)) pieces) /\
  (vocabulary_sized step bpe_target -> tokens bpe_target <> [] ->
   max_len_target <> 1%Z ->
   exists c : candidate State, winner' input_seq = Ok c).
Proof.
  intros Hspec. split; [| split].
  - intros probs. now apply first_selected_argmax.
  - intros c Hw. split.
    + unfold winner in Hw. inv_bind Hw.
      unfold search in E.
      destruct (loop' (Z.to_nat max_len_target)
                      [initial_candidate' (encode input_seq)] 1 0 0)
        as [n r] eqn:Hloop.
      simpl in E. subst r.
      apply (loop_greedy _ (initial_candidate' (encode input_seq)) c []
                         (start_token_idx bpe_target) 0 n a
                         eq_refl eq_refl Hloop Hw).
    + destruct (winner_reach input_seq c Hw) as [n [top [Hr Hget]]].
      apply py_get_In in Hget.
      pose proof (reach_pieces input_seq n top Hr) as Hall.
      rewrite Forall_forall in Hall.
      destruct (Hall c Hget) as [ids [ps [Hi [Hp HF]]]].
      exists ps. rewrite Hi. auto.
  - intros Hv Ht Hm.
    exact (winner_completes Hspec Hv Ht input_seq Hm).
Qed.
End WidthOne.

(** *** Invariants that depend on the generation *)

Section GenerationInvariant.
Variable input_seq : Input.
Variable P : nat -> candidate State -> Prop.
Hypothesis P_initial : P 0 (initial_candidate' (encode input_seq)).
Hypothesis P_dead :
  forall (n : nat) (c : candidate State), P n c -> live c = false -> P (S n) c.
Hypothesis P_live :
  forall (n : nat) (c s : candidate State) (tok idx : nat),
    P n c -> live c = true -> target_seq' c = Ok tok ->
    In idx (selected' (fst (step tok (states c)))) ->
    successor' c (fst (step tok (states c))) (snd (step tok (states c))) idx
    = Ok s ->
    P (S n) s.

Lemma pool_generation (n : nat) (top pool : beam) :
  Forall (P n) top -> new_candidates' top = Ok pool -> Forall (P (S n)) pool.
Proof.
  intros Htop Hpool. apply Forall_forall. intros s Hs.
  destruct (new_candidates_In _ _ _ Hpool Hs) as [c [cs [Hc [He Hin]]]].
  rewrite Forall_forall in Htop. specialize (Htop c Hc).
  destruct (expand_In c s cs He Hin)
    as [[Hl ->] | [Hl [tok [idx [Ht [Hi Hsucc]]]]]].
  - now apply P_dead.
  - eapply P_live; eauto.
Qed.

Lemma reach_generation_Forall (n : nat) (top : beam) :
  reach' input_seq n top -> Forall (P n) top.
Proof.
  induction 1 as [| n top top' _ IH _ _ Hgen].
  - now repeat constructor.
  - unfold generation in Hgen. inv_bind Hgen. inv_Ok Hgen.
    pose proof (pool_generation n top a IH E) as Hpool.
    rewrite Forall_forall in *. intros s Hs. apply Hpool.
    unfold prune in Hs. apply py_take_incl in Hs.
    now apply sorted_In in Hs.
Qed.
End GenerationInvariant.

(** The generations of one call form one chain. *)
Lemma reach_fun (input_seq : Input) (n : nat) (top1 top2 : beam) :
  reach' input_seq n top1 -> reach' input_seq n top2 -> top1 = top2.
Proof.
  intros H1. revert top2.
  induction H1 as [| n top top' _ IH _ _ Hgen]; intros top2 H2.
  - now inversion H2.
  - inversion H2 as [| n' t t' Hr _ _ Hgen']; subst.
    rewrite (IH t Hr) in Hgen. congruence.
Qed.

Lemma reach_budget (input_seq : Input) (n : nat) (top : beam) :
  reach' input_seq n top -> (Z.of_nat n <= Z.max 0 max_len_target)%Z.
Proof. destruct 1; lia. Qed.

Lemma winner_search (input_seq : Input) (c : candidate State) :
  winner' input_seq = Ok c ->
  exists top : beam,
    search' input_seq
    = (generations encode step argsort bpe_target max_len_target beam_width
                   input_seq, Ok top) /\
    py_get top 0 = Ok c.
Proof.
  unfold winner, generations. intros H. inv_bind H.
  destruct (search' input_seq) as [n r] eqn:Es. simpl in *. subst r.
  now exists a.
Qed.

(** *** Where the stop token stands *)

Lemma app_last_inv (A : Type) (l1 l2 : list A) (x y : A) :
  l1 ++ [x] = l2 ++ [y] -> l1 = l2 /\ x = y.
Proof. apply app_inj_tail. Qed.

Lemma reach_stop_position (input_seq : Input) (n : nat) (top : beam) :
  reach' input_seq n top ->
  Forall (fun c =>
            exists ids : list nat,
              idx_sequence c = start_token_idx bpe_target :: ids /\
              Forall (fun i => i <> stop_token_idx bpe_target) (removelast ids) /\
              (live c = false <->
               exists pre, ids = pre ++ [stop_token_idx bpe_target])) top.
Proof.
  apply reach_generation_Forall
    with (P := fun (_ : nat) c =>
            exists ids : list nat,
              idx_sequence c = start_token_idx bpe_target :: ids /\
              Forall (fun i => i <> stop_token_idx bpe_target) (removelast ids) /\
              (live c = false <->
               exists pre, ids = pre ++ [stop_token_idx bpe_target])).
  - exists []. repeat split; try constructor; try discriminate.
    intros [pre H]. now destruct pre.
  - auto.
  - intros _ c s tok idx [ids [Hseq [Hall Hlive]]] Hl _ _ Hs.
    apply successor_Ok in Hs. destruct Hs as [piece [p [_ [_ ->]]]]. simpl.
    exists (ids ++ [idx]). rewrite Hseq. split; [reflexivity |].
    rewrite removelast_last. split.
    + destruct ids as [| i0 r]; [constructor |].
      destruct (@exists_last _ (i0 :: r)) as [l [x E]]; [discriminate |].
      rewrite E in *. rewrite removelast_last in Hall.
      apply Forall_app. split; [assumption |].
      constructor; [| constructor].
      intros ->. rewrite (proj2 Hlive) in Hl; [discriminate | now exists l].
    + rewrite negb_false_iff, Nat.eqb_eq. split.
      * intros ->. now exists ids.
      * intros [pre H]. now apply app_last_inv in H.
Qed.

(** X2.  In every candidate the loop holds, the id sequence begins with the
    start id; after it the stop id occurs at most once, as the last id; and
    the candidate is dead exactly when its last appended id is the stop
    id. *)
Theorem stop_token_last (input_seq : Input) (n : nat) (top : beam)
        (c : candidate State) :
  reach' input_seq n top -> In c top ->
  exists ids : list nat,
    idx_sequence c = start_token_idx bpe_target :: ids /\
    Forall (fun i => i <> stop_token_idx bpe_target) (removelast ids) /\
    (live c = false <-> exists pre, ids = pre ++ [stop_token_idx bpe_target]).
Proof.
  intros Hr Hc. pose proof (reach_stop_position input_seq n top Hr) as H.
  rewrite Forall_forall in H. now apply H.
Qed.

(** *** The length of the sequences *)

Lemma reach_lengths (input_seq : Input) (n : nat) (top : beam) :
  reach' input_seq n top ->
  Forall (fun c =>
            List.length (token_sequence c) = List.length (idx_sequence c) /\
            (1 <= List.length (idx_sequence c) <= S n)%nat /\
            (live c = true -> List.length (idx_sequence c) = S n)) top.
Proof.
  apply reach_generation_Forall
    with (P := fun n c =>
            List.length (token_sequence c) = List.length (idx_sequence c) /\
            (1 <= List.length (idx_sequence c) <= S n)%nat /\
            (live c = true -> List.length (idx_sequence c) = S n)).
  - simpl. repeat split; auto.
  - intros k c [H1 [H2 _]] Hl. repeat split; try lia. congruence.
  - intros k c s tok idx [H1 [H2 H3]] Hl _ _ Hs.
    apply successor_Ok in Hs. destruct Hs as [piece [p [_ [_ ->]]]]. simpl.
    rewrite !length_app, H1, (H3 Hl). simpl. repeat split; lia.
Qed.

(** X3.  The sequence handed to the detokenizer has one piece per id; it
    has at least one piece and at most one more than the number of
    generations the call ran, hence at most [max_len_target + 1]; a winner
    that is still live has exactly one id per generation after the start
    id. *)
Theorem decoded_length (input_seq : Input) (c : candidate State) :
  winner' input_seq = Ok c ->
  List.length (token_sequence c) = List.length (idx_sequence c) /\
  (1 <= List.length (idx_sequence c)
   <= S (generations encode step argsort bpe_target max_len_target beam_width
                     input_seq))%nat /\
  (Z.of_nat (List.length (idx_sequence c)) <= Z.max 0 max_len_target + 1)%Z /\
  (live c = true ->
   List.length (idx_sequence c)
   = S (generations encode step argsort bpe_target max_len_target beam_width
                    input_seq)).
Proof.
  intros Hw. destruct (winner_search input_seq c Hw) as [top [Hs Hget]].
  apply search_reach in Hs. apply py_get_In in Hget.
  pose proof (reach_lengths input_seq _ top Hs) as Hall.
  rewrite Forall_forall in Hall. destruct (Hall c Hget) as [H1 [H2 H3]].
  pose proof (reach_budget input_seq _ top Hs) as Hb.
  repeat split; try assumption; lia.
Qed.

(** *** The score and the state of a candidate *)

Lemma last_cons_default (A : Type) (l : list A) (a d : A) :
  last (a :: l) d = last l a.
Proof.
  revert a d. induction l as [| b l IH]; intros a d; [reflexivity |].
  change (last (b :: l) d = last (b :: l) a). now rewrite (IH b d), (IH b a).
Qed.

Lemma py_last_Ok (A : Type) (l : list A) (x : A) :
  py_last l = Ok x -> exists pre : list A, l = pre ++ [x].
Proof.
  destruct l as [| a l]; [discriminate |].
  destruct (@exists_last _ (a :: l)) as [pre [y E]]; [discriminate |].
  rewrite E, py_last_app. intros H. inv_Ok H. now exists pre.
Qed.

(** The id fed to the network is the last id of the sequence. *)
Lemma target_seq_last (c : candidate State) (tok first : nat) (ids : list nat) :
  target_seq' c = Ok tok -> idx_sequence c = first :: ids ->
  tok = last ids first.
Proof.
  unfold target_seq. intros H Hseq.
  destruct (max_len_target - 1 <? 0)%Z; [discriminate |].
  inv_bind H. destruct (max_len_target - 1 =? 0)%Z; [discriminate |].
  inv_Ok H. apply py_last_Ok in E. destruct E as [pre E].
  rewrite Hseq in E. rewrite <- (last_cons_default _ ids first 0%nat), E.
  now rewrite last_last.
Qed.

Lemma replay_snoc (ids : list nat) :
  forall (st0 st : State) (l0 idx : nat) (sc0 sc : fnum) (p : Q),
    replay step st0 l0 sc0 ids = Ok (st, sc) ->
    py_get (fst (step (last ids l0) st)) idx = Ok p ->
    replay step st0 l0 sc0 (ids ++ [idx])
    = Ok (snd (step (last ids l0) st), sub sc (np_log p)).
Proof.
  induction ids as [| i r IH]; intros st0 st l0 idx sc0 sc p H Hp.
  - simpl in *. inv_Ok H. destruct (step l0 st) as [probs st']. simpl in *.
    now rewrite Hp.
  - rewrite last_cons_default in Hp. rewrite last_cons_default.
    simpl in H |- *. destruct (step l0 st0) as [probs st'].
    inv_bind H. rewrite E. simpl. now apply IH.
Qed.

Lemma reach_replay (input_seq : Input) (n : nat) (top : beam) :
  reach' input_seq n top ->
  Forall (fun c =>
            exists ids : list nat,
              idx_sequence c = start_token_idx bpe_target :: ids /\
              replay step (encode input_seq) (start_token_idx bpe_target)
                     zero ids
              = Ok (states c, score c)) top.
Proof.
  apply reach_generation_Forall
    with (P := fun (_ : nat) c =>
            exists ids : list nat,
              idx_sequence c = start_token_idx bpe_target :: ids /\
              replay step (encode input_seq) (start_token_idx bpe_target)
                     zero ids
              = Ok (states c, score c)).
  - now exists [].
  - auto.
  - intros _ c s tok idx [ids [Hseq Hrep]] _ Ht _ Hs.
    apply successor_Ok in Hs. destruct Hs as [piece [p [_ [Hp ->]]]]. simpl.
    exists (ids ++ [idx]). rewrite Hseq. split; [reflexivity |].
    rewrite (target_seq_last c tok _ ids Ht Hseq) in *.
    apply replay_snoc; [assumption |].
    unfold py_get. now rewrite Hp.
Qed.

(** X6.  The bookkeeping of a candidate agrees with the network run along
    its own sequence: feeding the ids after the start id to the network,
    one after the other from the encoder state, ends in the state the
    candidate holds, and the score of the candidate is [0.0] minus the
    logarithms of the probabilities these ids had. *)
Theorem score_is_replay (input_seq : Input) (n : nat) (top : beam)
        (c : candidate State) :
  reach' input_seq n top -> In c top ->
  exists ids : list nat,
    idx_sequence c = start_token_idx bpe_target :: ids /\
    replay step (encode input_seq) (start_token_idx bpe_target) zero ids
    = Ok (states c, score c).
Proof.
  intros Hr Hc. pose proof (reach_replay input_seq n top Hr) as H.
  rewrite Forall_forall in H. now apply H.
Qed.

(** *** A decoder input of width zero *)

(** X7.  With [max_len_target = 1] and a positive [beam_width] the call
    raises [IndexError] in its first generation: the decoder input of line
    169 has width zero and the store of line 170 is out of range. *)
Theorem max_len_one_raises (input_seq : Input) :
  max_len_target = 1%Z -> (0 < beam_width)%Z ->
  search' input_seq = (1%nat, Raise IndexError) /\
  decode_beam_search encode step argsort DecodePieces bpe_target
                     max_len_target beam_width input_seq
  = Raise IndexError.
Proof.
  intros Hm Hw.
  assert (Hs : search' input_seq = (1%nat, Raise IndexError)).
  { unfold search. rewrite Hm. simpl.
    unfold running. simpl.
    destruct (Z.ltb_spec 0 beam_width); [| lia]. simpl.
    unfold generation, expand, target_seq. simpl. reflexivity. }
  split; [exact Hs |].
  unfold decode_beam_search, decoded_pieces, winner. now rewrite Hs.
Qed.

(** *** Calls that stop before the budget *)

Lemma count_sum (top : beam) :
  (count_live top + count_dead top)%nat = List.length top.
Proof.
  unfold count_live, count_dead.
  induction top as [| c top IH]; simpl; [reflexivity |].
  destruct (live c); simpl; lia.
Qed.

Lemma count_live_zero (top : beam) :
  count_live top = 0%nat -> Forall (fun c => live c = false) top.
Proof.
  unfold count_live. induction top as [| c top IH]; simpl; [constructor |].
  destruct (live c) eqn:Hl; simpl; [discriminate |].
  intros H. constructor; auto.
Qed.

(** The loop ends when the budget is used up or the guard fails. *)
Lemma loop_halt (fuel : nat) :
  forall (top top' : beam) (done n : nat),
    loop' fuel top (count_live top) (count_dead top) done = (n, Ok top') ->
    n = (done + fuel)%nat \/
    running' (count_live top') (count_dead top') = false.
Proof.
  induction fuel as [| fuel IH]; intros top top' done n H; simpl in H.
  - inv_Ok H. left. lia.
  - destruct (running' (count_live top) (count_dead top)) eqn:Hrun; simpl in H.
    + destruct (generation' top) as [top1 | e]; [| discriminate].
      apply IH in H. destruct H as [-> | H]; [left; lia | now right].
    + inv_Ok H. now right.
Qed.

(** X1.  A call that returns after fewer than [max_len_target] generations
    either ran none, the beam width not being positive, and ends with the
    initial beam, or ends with a beam in which every candidate is dead: the
    id sequence of each, the winner's too, ends with the stop id. *)
Theorem early_halt (input_seq : Input) (n : nat) (top : beam) :
  search' input_seq = (n, Ok top) ->
  (Z.of_nat n < max_len_target)%Z ->
  (n = 0%nat /\ (beam_width <= 0)%Z /\
   top = [initial_candidate' (encode input_seq)]) \/
  ((0 < n)%nat /\
   Forall (fun c =>
             live c = false /\
             exists pre, idx_sequence c = pre ++ [stop_token_idx bpe_target])
          top).
Proof.
  intros Hs Hn.
  pose proof (search_reach input_seq n top Hs) as Hr.
  unfold search in Hs.
  apply (loop_halt _ [initial_candidate' (encode input_seq)]) in Hs.
  destruct Hs as [-> | Hrun]; [lia |].
  destruct n as [| n].
  - left. inversion Hr; subst. repeat split.
    unfold running in Hrun. simpl in Hrun.
    destruct (Z.ltb_spec 0 beam_width); [discriminate | lia].
  - right. split; [lia |].
    assert (Hlen : (Z.of_nat (List.length top) <= beam_width)%Z).
    { inversion Hr as [| n' top0 top' _ _ Hrun0 Hgen]; subst.
      apply running_width in Hrun0.
      apply (generation_length top0); [lia | assumption]. }
    assert (Hlive : count_live top = 0%nat).
    { unfold running in Hrun. apply andb_false_iff in Hrun.
      destruct Hrun as [Hrun | Hrun].
      - apply negb_false_iff, Nat.eqb_eq in Hrun. assumption.
      - apply Z.ltb_ge in Hrun. pose proof (count_sum top). lia. }
    pose proof (count_live_zero top Hlive) as Hdead.
    pose proof (reach_stop_position input_seq _ top Hr) as Hpos.
    rewrite Forall_forall in *. intros c Hc.
    split; [now apply Hdead |].
    destruct (Hpos c Hc) as [ids [Hseq [_ Hiff]]].
    destruct (proj1 Hiff (Hdead c Hc)) as [pre ->].
    exists (start_token_idx bpe_target :: pre). now rewrite Hseq.
Qed.

(** *** What pruning keeps *)

(** X4.  For a model whose probabilities are not negative, pruning keeps
    the lowest scores of the pool: the new beam is made of members of the
    pool, [min beam_width (size of the pool)] of them, and no member of the
    pool that was left out has a lower score than a member that was
    kept. *)
Theorem prune_keeps_lowest (input_seq : Input) (n : nat) (top pool : beam) :
  nonneg_model step ->
  reach' input_seq n top -> new_candidates' top = Ok pool ->
  (forall c : candidate State, In c (prune' pool) -> In c pool) /\
  ((0 <= beam_width)%Z ->
   List.length (prune' pool)
   = Nat.min (Z.to_nat beam_width) (List.length pool)) /\
  (forall kept out : candidate State,
      In kept (prune' pool) -> In out pool -> ~ In out (prune' pool) ->
      score_le kept out).
Proof.
  intros Hnn Hr Hpool. unfold prune. split; [| split].
  - intros c Hc. apply py_take_incl in Hc. now apply sorted_In in Hc.
  - intros Hw. rewrite py_take_nonneg by assumption.
    now rewrite length_firstn, sorted_length.
  - pose proof (sorted_pool pool (pool_ordered Hnn input_seq n top pool Hr Hpool))
      as Hs.
    destruct (py_take_firstn _ beam_width (sorted score_lt pool)) as [m ->].
    intros kept out Hk Ho Hout.
    apply (proj2 (sorted_In _ score_lt pool out)) in Ho.
    rewrite <- (firstn_skipn m) in Ho, Hs.
    apply in_app_or in Ho. destruct Ho as [Ho | Ho]; [contradiction |].
    apply (StronglySorted_app_lr _ _ _ _ kept out Hs Hk Ho).
Qed.

(** X5.  For a model whose probabilities are not negative, the candidate
    that is decoded has the lowest score of the beam the loop ends
    with. *)
Theorem winner_lowest_score (input_seq : Input) (n : nat) (top : beam)
        (c : candidate State) :
  nonneg_model step ->
  search' input_seq = (n, Ok top) -> winner' input_seq = Ok c ->
  In c top /\ forall c' : candidate State, In c' top -> score_le c c'.
Proof.
  intros Hnn Hs Hw. unfold winner in Hw. rewrite Hs in Hw. simpl in Hw.
  apply search_reach in Hs.
  pose proof (reach_sorted Hnn input_seq n top Hs) as Hsorted.
  pose proof (reach_ordered Hnn input_seq n top Hs) as Hord.
  destruct top as [| c0 rest]; [discriminate |].
  simpl in Hw. inv_Ok Hw. split; [now left |].
  intros c' [<- | Hc'].
  - apply Forall_inv in Hord. now apply NumFacts.leb_refl.
  - apply StronglySorted_inv in Hsorted. destruct Hsorted as [_ Hall].
    rewrite Forall_forall in Hall. now apply Hall.
Qed.

(** *** Distinct hypotheses *)

Lemma NoDup_map_snoc (l : list nat) (ids : list nat) :
  NoDup ids -> NoDup (map (fun i => l ++ [i]) ids).
Proof.
  induction 1 as [| i ids Hi _ IH]; simpl; constructor; [| assumption].
  intros H. apply in_map_iff in H. destruct H as [j [Hj Hin]].
  apply app_inj_tail in Hj. destruct Hj as [_ ->]. contradiction.
Qed.

(** The id sequence of a member of the pool is that of a dead candidate of
    the beam, or that of a live one with one more id. *)
Lemma pool_sequence (top pool : beam) (s : candidate State) :
  new_candidates' top = Ok pool -> In s pool ->
  exists c : candidate State,
    In c top /\
    ((live c = false /\ idx_sequence s = idx_sequence c) \/
     (live c = true /\ exists i, idx_sequence s = idx_sequence c ++ [i])).
Proof.
  intros Hpool Hs.
  destruct (new_candidates_In _ _ _ Hpool Hs) as [c [cs [Hc [He Hin]]]].
  exists c. split; [assumption |].
  destruct (expand_In c s cs He Hin)
    as [[Hl ->] | [Hl [tok [idx [_ [_ Hsucc]]]]]]; [now left |].
  right. split; [assumption |].
  apply successor_Ok in Hsucc. destruct Hsucc as [piece [p [_ [_ ->]]]].
  now exists idx.
Qed.

Section Distinct.
Hypothesis argsort_ok : argsort_spec argsort.

Lemma expand_NoDup (c : candidate State) (cs : beam) :
  expand' c = Ok cs -> NoDup (map idx_sequence cs).
Proof.
  intros He. destruct (live c) eqn:Hl.
  - destruct (expand_live c cs Hl He) as [tok [Ht _]].
    rewrite (expand_ids c cs tok Hl Ht He).
    apply NoDup_map_snoc, (selected_NoDup argsort_ok).
  - rewrite (expand_dead c Hl) in He. inv_Ok He.
    simpl. constructor; [tauto | constructor].
Qed.

Lemma pool_NoDup (n : nat) (top : beam) :
  forall pool : beam,
    NoDup (map idx_sequence top) ->
    Forall (fun c =>
              (List.length (idx_sequence c) <= S n)%nat /\
              (live c = true -> List.length (idx_sequence c) = S n)) top ->
    new_candidates' top = Ok pool ->
    NoDup (map idx_sequence pool).
Proof.
  induction top as [| c top IH]; simpl; intros pool Hnd Hlen Hpool.
  - inv_Ok Hpool. constructor.
  - inv_bind Hpool. inv_bind Hpool. inv_Ok Hpool.
    apply NoDup_cons_iff in Hnd. destruct Hnd as [Hc Hnd].
    apply Forall_cons_iff in Hlen. destruct Hlen as [[Hc1 Hc2] Hlen].
    rewrite map_app. apply NoDup_app.
    + now apply (expand_NoDup c).
    + now apply IH.
    + intros x Hx Hx'.
      apply in_map_iff in Hx. destruct Hx as [s [<- Hs]].
      apply in_map_iff in Hx'. destruct Hx' as [s' [Heq Hs']].
      destruct (pool_sequence top a0 s' E0 Hs') as [c' [Hc' Hshape]].
      rewrite Forall_forall in Hlen. destruct (Hlen c' Hc') as [Hl1 Hl2].
      assert (Hne : idx_sequence c <> idx_sequence c').
      { intros Heq'. apply Hc. rewrite Heq'. now apply in_map. }
      destruct (expand_In c s a E Hs)
        as [[Hl ->] | [Hl [tok [idx [_ [_ Hsucc]]]]]].
      * destruct Hshape as [[_ H'] | [Hl' [j H']]]; rewrite H' in Heq.
        -- congruence.
        -- apply (f_equal (@List.length nat)) in Heq.
           rewrite length_app, (Hl2 Hl') in Heq. simpl in Heq. lia.
      * apply successor_Ok in Hsucc. destruct Hsucc as [piece [p [_ [_ ->]]]].
        simpl in Heq.
        destruct Hshape as [[_ H'] | [Hl' [j H']]]; rewrite H' in Heq.
        -- apply (f_equal (@List.length nat)) in Heq.
           rewrite length_app, (Hc2 Hl) in Heq. simpl in Heq. lia.
        -- apply app_inj_tail in Heq. destruct Heq as [Heq _]. congruence.
Qed.

(** X8.  No two candidates of a beam hold the same id sequence: the beam
    never spends two of its places on one hypothesis. *)
Theorem beam_distinct (input_seq : Input) (n : nat) (top : beam) :
  reach' input_seq n top -> NoDup (map idx_sequence top).
Proof.
  induction 1 as [| n top top' Hr IH _ _ Hgen].
  - simpl. constructor; [tauto | constructor].
  - unfold generation in Hgen. inv_bind Hgen. inv_Ok Hgen.
    assert (Hpool : NoDup (map idx_sequence a)).
    { apply (pool_NoDup n top); [assumption | | assumption].
      eapply Forall_impl; [| apply (reach_lengths input_seq n top Hr)].
      simpl. intros c [_ [H1 H2]]. split; [lia | assumption]. }
    unfold prune.
    destruct (py_take_firstn _ beam_width (sorted score_lt a)) as [m ->].
    rewrite <- firstn_map.
    assert (Hsorted : NoDup (map idx_sequence (sorted score_lt a))).
    { apply (Permutation_NoDup
               (Permutation_map idx_sequence
                  (Permutation_sym (sorted_perm _ score_lt a)))).
      assumption. }
    rewrite <- (firstn_skipn m) in Hsorted.
    now apply NoDup_app_remove_r in Hsorted.
Qed.
End Distinct.

(** *** A dead candidate at the head of the beam *)

Lemma leb_not_ltb (a b : fnum) :
  ordered a -> ordered b -> leb a b = true -> ltb b a = false.
Proof.
  destruct a as [x | | |], b as [y | | |];
    try (simpl; tauto); try (simpl; discriminate); try reflexivity.
  intros _ _ H. apply NumFacts.leb_Ln in H.
  destruct (ltb (Ln y) (Ln x)) eqn:E; [| reflexivity].
  apply NumFacts.ltb_Ln in E. now apply Qle_not_lt in H.
Qed.

Lemma insert_head (A : Type) (cmp : A -> A -> bool) (x : A) (l : list A) :
  Forall (fun y => cmp y x = false) l -> insert cmp x l = x :: l.
Proof.
  destruct 1 as [| y l Hy _]; simpl; [reflexivity | now rewrite Hy].
Qed.

Lemma reach_prefix (input_seq : Input) (n : nat) (top : beam) :
  reach' input_seq n top ->
  forall k : nat, (k <= n)%nat -> exists t : beam, reach' input_seq k t.
Proof.
  induction 1 as [| n top top' Hr IH Hn Hrun Hgen]; intros k Hk.
  - exists [initial_candidate' (encode input_seq)].
    replace k with 0%nat by lia. constructor.
  - destruct (Nat.eq_dec k (S n)) as [-> | Hne].
    + exists top'. eapply reach_generation; eassumption.
    + apply IH. lia.
Qed.

(** No beam is held beyond the generation the loop ends with. *)
Lemma reach_le_generations (input_seq : Input) (n m : nat) (top final : beam) :
  search' input_seq = (m, Ok final) -> reach' input_seq n top -> (n <= m)%nat.
Proof.
  intros Hs Hr. destruct (Nat.le_gt_cases n m) as [Hle | Hgt]; [assumption |].
  exfalso.
  destruct (reach_prefix input_seq n top Hr (S m)) as [t Ht]; [lia |].
  inversion Ht as [| m' t0 t' Hr0 Hm Hrun Hgen]; subst.
  pose proof (search_reach input_seq m final Hs) as Hf.
  rewrite (reach_fun input_seq m t0 final Hr0 Hf) in Hrun.
  unfold search in Hs.
  apply (loop_halt _ [initial_candidate' (encode input_seq)]) in Hs.
  destruct Hs as [-> | Hs]; [lia | congruence].
Qed.

Section DeadLeader.
Hypothesis probs_unit : unit_model step.

(** Nothing an expansion puts into the pool scores below its parent. *)
Lemma expand_score_le (c s : candidate State) (cs : beam) :
  ordered (score c) -> expand' c = Ok cs -> In s cs -> score_le c s.
Proof.
  intros Hord He Hs. unfold score_le.
  destruct (expand_In c s cs He Hs)
    as [[_ ->] | [_ [tok [idx [_ [_ Hsucc]]]]]].
  - now apply NumFacts.leb_refl.
  - apply successor_Ok in Hsucc. destruct Hsucc as [piece [p [_ [Hp ->]]]].
    pose proof (nth_error_Forall _ _ _ _ _ (probs_unit tok (states c)) Hp)
      as [Hp0 Hp1].
    simpl. now apply NumFacts.sub_log_ge.
Qed.

Lemma dead_leader_generation (input_seq : Input) (n : nat)
      (c : candidate State) (rest top' : beam) :
  reach' input_seq n (c :: rest) -> live c = false ->
  reach' input_seq (S n) top' ->
  exists rest' : beam, top' = c :: rest'.
Proof.
  intros Hr Hl Hr'.
  inversion Hr' as [| n' t t' Hr0 _ Hrun Hgen]; subst.
  rewrite (reach_fun input_seq n t (c :: rest) Hr0 Hr) in *.
  apply running_width in Hrun.
  unfold generation in Hgen. inv_bind Hgen. inv_Ok Hgen.
  pose proof (pool_ordered (unit_nonneg probs_unit) input_seq n _ a Hr E)
    as Hpool.
  pose proof (reach_ordered (unit_nonneg probs_unit) input_seq n _ Hr) as Hord.
  pose proof (reach_sorted (unit_nonneg probs_unit) input_seq n _ Hr)
    as Hsorted.
  apply StronglySorted_inv in Hsorted. destruct Hsorted as [_ Hrest].
  rewrite Forall_forall in Hord, Hrest.
  simpl in E. rewrite (expand_dead c Hl) in E. simpl in E.
  inv_bind E. inv_Ok E. simpl in Hpool.
  apply Forall_cons_iff in Hpool. destruct Hpool as [Hc Hpool].
  rewrite Forall_forall in Hpool.
  unfold prune. simpl sorted.
  rewrite insert_head.
  - rewrite py_take_nonneg by lia.
    destruct (Z.to_nat beam_width) eqn:Ew; [lia |]. simpl. eauto.
  - apply Forall_forall. intros y Hy. apply sorted_In in Hy.
    unfold score_lt. apply leb_not_ltb; auto.
    destruct (new_candidates_In _ _ _ E0 Hy) as [p [cs [Hp [He Hin]]]].
    apply NumFacts.leb_trans with (score p).
    + apply Hrest, Hp.
    + apply (expand_score_le p y cs); auto. apply Hord. now right.
Qed.

Lemma dead_leader_chain (input_seq : Input) (n : nat) (c : candidate State)
      (rest : beam) :
  reach' input_seq n (c :: rest) -> live c = false ->
  forall (k : nat) (top' : beam),
    reach' input_seq (n + k) top' -> exists rest' : beam, top' = c :: rest'.
Proof.
  intros Hr Hl. induction k as [| k IH]; intros top' Hr'.
  - rewrite Nat.add_0_r in Hr'. exists rest.
    apply (reach_fun input_seq n); assumption.
  - rewrite Nat.add_succ_r in Hr'.
    inversion Hr' as [| m t t' Hr0 Hm Hrun Hgen]; subst.
    destruct (IH t Hr0) as [r ->].
    apply (dead_leader_generation input_seq (n + k) c r top' Hr0 Hl Hr').
Qed.

(** X9.  For a model whose probabilities lie in [0, 1]: once a dead
    candidate stands at the head of the beam, it stays there; it is the
    candidate that is decoded, whatever the loop does afterwards. *)
Theorem dead_leader_wins (input_seq : Input) (n : nat) (top : beam)
        (c w : candidate State) :
  reach' input_seq n top -> py_get top 0 = Ok c -> live c = false ->
  winner' input_seq = Ok w -> w = c.
Proof.
  intros Hr Hc Hl Hw.
  destruct top as [| c0 rest]; [discriminate |]. simpl in Hc. inv_Ok Hc.
  destruct (winner_search input_seq w Hw) as [final [Hs Hget]].
  pose proof (reach_le_generations input_seq n _ _ final Hs Hr) as Hle.
  apply search_reach in Hs.
  replace (generations encode step argsort bpe_target max_len_target
                       beam_width input_seq)
    with (n + (generations encode step argsort bpe_target max_len_target
                           beam_width input_seq - n))%nat in Hs by lia.
  destruct (dead_leader_chain input_seq n c rest Hr Hl _ final Hs) as [r ->].
  simpl in Hget. now inv_Ok Hget.
Qed.
End DeadLeader.

End DecoderFacts.

(** ** The decoder consults [np.argsort] on negated distributions only *)

Section ArgsortExt.
Variable Input State : Type.
Variable encode : Input -> State.
Variable step : nat -> State -> list Q * State.
Variable argsort1 argsort2 : list Q -> list nat.
Variable bpe_target : bpe.
Variable max_len_target : Z.
Variable beam_width : Z.

Hypothesis agree :
  forall (tok : nat) (st : State),
    argsort1 (map Qopp (fst (step tok st)))
    = argsort2 (map Qopp (fst (step tok st))).

Lemma expand_ext (c : candidate State) :
  expand step argsort1 bpe_target max_len_target beam_width c
  = expand step argsort2 bpe_target max_len_target beam_width c.
Proof.
  unfold expand. destruct (live c); simpl; [| reflexivity].
  destruct (target_seq max_len_target c) as [tok | e]; simpl; [| reflexivity].
  pose proof (agree tok (states c)) as H.
  destruct (step tok (states c)) as [probs st]. simpl in H.
  unfold selected. now rewrite H.
Qed.

Lemma new_candidates_ext (top : list (candidate State)) :
  new_candidates step argsort1 bpe_target max_len_target beam_width top
  = new_candidates step argsort2 bpe_target max_len_target beam_width top.
Proof.
  induction top as [| c top IH]; simpl; [reflexivity |].
  now rewrite expand_ext, IH.
Qed.

Lemma generation_ext (top : list (candidate State)) :
  generation step argsort1 bpe_target max_len_target beam_width top
  = generation step argsort2 bpe_target max_len_target beam_width top.
Proof. unfold generation. now rewrite new_candidates_ext. Qed.

Lemma loop_ext (fuel : nat) (top : list (candidate State))
      (live_k dead_k done : nat) :
  loop step argsort1 bpe_target max_len_target beam_width fuel top
       live_k dead_k done
  = loop step argsort2 bpe_target max_len_target beam_width fuel top
         live_k dead_k done.
Proof.
  revert top live_k dead_k done.
  induction fuel as [| fuel IH]; intros top live_k dead_k done; simpl;
    [reflexivity |].
  rewrite generation_ext.
  destruct (negb (running beam_width live_k dead_k)); [reflexivity |].
  destruct (generation step argsort2 bpe_target max_len_target beam_width top);
    [apply IH | reflexivity].
Qed.

Lemma search_ext (input_seq : Input) :
  search encode step argsort1 bpe_target max_len_target beam_width input_seq
  = search encode step argsort2 bpe_target max_len_target beam_width input_seq.
Proof. apply loop_ext. Qed.
End ArgsortExt.

(** ** The forced-stop scenario *)

Section ForcedStop.
Variable Input State : Type.
Variable encode : Input -> State.
Variable next : nat -> State -> State.
Variable argsort : list Q -> list nat.
Variable start_idx : nat.
Variable start_piece t0 t1 t2 t3 : string.

Hypothesis argsort_ok : argsort_spec argsort.

(** [np.argsort] of the negated distribution puts the stop token first
    and two other, distinct ids after it. *)
Lemma forced_stop_argsort :
  exists a b c : nat,
    argsort (map Qopp [0; 1; 0; 0]) = [1; a; b; c]%nat /\
    (a = 0 \/ a = 2 \/ a = 3)%nat /\ (b = 0 \/ b = 2 \/ b = 3)%nat /\
    a <> b.
Proof.
  destruct (argsort_ok (map Qopp [0; 1; 0; 0])) as [Hperm Hs].
  pose proof (Permutation_length Hperm) as Hlen.
  assert (Hnd : NoDup (argsort (map Qopp [0; 1; 0; 0]))).
  { apply (Permutation_NoDup (Permutation_sym Hperm)), seq_NoDup. }
  assert (Hin : forall x, In x (argsort (map Qopp [0; 1; 0; 0])) ->
                          (x = 0 \/ x = 1 \/ x = 2 \/ x = 3)%nat).
  { intros x Hx. apply (Permutation_in _ Hperm), in_seq in Hx.
    simpl in Hx. lia. }
  assert (H1 : In 1%nat (argsort (map Qopp [0; 1; 0; 0]))).
  { apply (Permutation_in _ (Permutation_sym Hperm)), in_seq. simpl. lia. }
  destruct (argsort (map Qopp [0; 1; 0; 0])) as [| x1 [| x2 [| x3 [| x4 [|]]]]];
    try discriminate.
  assert (Hx1 : x1 = 1%nat).
  { destruct H1 as [H1 | H1]; [congruence |].
    apply StronglySorted_inv in Hs. destruct Hs as [_ Hs].
    rewrite Forall_forall in Hs. specialize (Hs 1%nat H1).
    destruct (Hin x1 (or_introl eq_refl)) as [-> | [-> | [-> | ->]]];
      try reflexivity; now compute in Hs. }
  subst x1.
  apply NoDup_cons_iff in Hnd. destruct Hnd as [Hn1 Hnd].
  apply NoDup_cons_iff in Hnd. destruct Hnd as [Hn2 _].
  exists x2, x3, x4. split; [reflexivity |].
  assert (Hx2 := Hin x2 (or_intror (or_introl eq_refl))).
  assert (Hx3 := Hin x3 (or_intror (or_intror (or_introl eq_refl)))).
  simpl in Hn1, Hn2.
  repeat split; try lia.
Qed.

(** C3 (as the code has it).  Vocabulary of four, stop token 1, a model
    that always gives the stop token probability one, [beam_width = 3],
    [max_len_target = 10]: the loop runs exactly three generations (after
    the first one a single candidate is dead, and two live ones of score
    [+inf] remain), and the sequence handed to the detokenizer is the
    start piece followed by the stop piece. *)
Theorem forced_stop_decode (input_seq : Input) :
  generations encode (Scenario.forced_stop_with next) argsort
              (Scenario.four_tokens start_idx start_piece t0 t1 t2 t3)
              10 3 input_seq = 3%nat /\
  decoded_pieces encode (Scenario.forced_stop_with next) argsort
                 (Scenario.four_tokens start_idx start_piece t0 t1 t2 t3)
                 10 3 input_seq = Ok [start_piece; t1] /\
  exists c : candidate State,
    winner encode (Scenario.forced_stop_with next) argsort
           (Scenario.four_tokens start_idx start_piece t0 t1 t2 t3)
           10 3 input_seq = Ok c /\
    idx_sequence c = [start_idx; 1%nat] /\ score c = zero /\ live c = false.
Proof.
  destruct forced_stop_argsort as [a [b [c [HL [Ha [Hb Hab]]]]]].
  unfold generations, decoded_pieces, winner.
  rewrite (search_ext _ _ encode (Scenario.forced_stop_with next)
                      argsort (fun _ => [1; a; b; c]%nat)
                      (Scenario.four_tokens start_idx start_piece t0 t1 t2 t3)
                      10 3 (fun _ _ => HL) input_seq).
  destruct Ha as [-> | [-> | ->]]; destruct Hb as [-> | [-> | ->]];
    try (now elim Hab);
    vm_compute; (split; [reflexivity |]); (split; [reflexivity |]);
    eexists; repeat split.
Qed.
End ForcedStop.

(** ** Runs of the scenario models *)

Ltac solve_model :=
  intros ? ?; simpl;
  repeat (constructor; try (split; unfold Qle; simpl; lia);
          try (unfold Qle; simpl; lia)).

Lemma uniform_unit : unit_model Scenario.uniform.
Proof. solve_model. Qed.

Lemma uniform_nonneg : nonneg_model Scenario.uniform.
Proof. solve_model. Qed.

Lemma forced_stop_nonneg : nonneg_model Scenario.forced_stop.
Proof. solve_model. Qed.

(** The beam after the first generation of the uniform model, with
    [beam_width = 2]. *)
Lemma uniform_first_generation :
  exists top : list (candidate unit),
    reach Scenario.encode Scenario.uniform argsort_insertion
          (Scenario.vocabulary 0) 3 2 [] 1 top.
Proof.
  eexists.
  eapply reach_generation;
    [apply reach_initial | reflexivity | reflexivity | vm_compute; reflexivity].
Defined.

(** The uniform model, [beam_width = 2]: the beam after one generation. *)
Lemma beam_bounded_sorted_witness :
  exists top : list (candidate unit),
    reach Scenario.encode Scenario.uniform argsort_insertion
          (Scenario.vocabulary 0) 3 2 [] 1 top /\
    (Z.of_nat (List.length top) <= 2)%Z /\
    StronglySorted score_le top.
Proof.
  destruct uniform_first_generation as [top Hr].
  exists top. split; [exact Hr |].
  destruct (beam_bounded_sorted _ _ Scenario.encode Scenario.uniform
              argsort_insertion (Scenario.vocabulary 0) 3 2 [] 0 top Hr)
    as [Hlen Hsorted].
  split; [exact Hlen | exact (Hsorted uniform_nonneg)].
Defined.

(** A model with one negative entry, [beam_width = 3]: the pool of the
    second generation is the two successors of the live candidate, of
    scores [log(128/3)] and NaN, followed by the dead candidate of score
    [log 4].  No entry of the pool is below its predecessor ([<] is false
    on NaN), so [sorted] returns the pool as it stands, and the beam of
    the second generation has a score of about 3.75 before one of about
    1.39. *)
Lemma negative_probability_beam_not_sorted :
  exists top pool : list (candidate nat),
    reach Scenario.counting_encode Scenario.one_negative argsort_insertion
          Scenario.two_tokens 2 3 [] 1 top /\
    new_candidates Scenario.one_negative argsort_insertion Scenario.two_tokens
                   2 3 top = Ok pool /\
    map idx_sequence pool = [[0; 0; 0]; [0; 0; 1]; [0; 1]]%nat /\
    map score pool = [Ln (128 # 3); NaN; Ln 4] /\
    Sorted (fun a b => score_lt b a = false) pool /\
    prune 3 pool = pool /\
    reach Scenario.counting_encode Scenario.one_negative argsort_insertion
          Scenario.two_tokens 2 3 [] 2 pool /\
    search Scenario.counting_encode Scenario.one_negative argsort_insertion
           Scenario.two_tokens 2 3 [] = (2%nat, Ok pool) /\
    ltb (Ln 4) (Ln (128 # 3)) = true /\
    ~ StronglySorted score_le pool.
Proof.
  eexists. eexists. split.
  { eapply reach_generation;
      [apply reach_initial | reflexivity | reflexivity
      | vm_compute; reflexivity]. }
  split; [vm_compute; reflexivity |].
  split; [reflexivity |].
  split; [reflexivity |].
  split; [repeat constructor |].
  split; [vm_compute; reflexivity |].
  split.
  { eapply reach_generation;
      [eapply reach_generation;
         [apply reach_initial | reflexivity | reflexivity
         | vm_compute; reflexivity]
      | reflexivity | reflexivity | vm_compute; reflexivity]. }
  split; [vm_compute; reflexivity |].
  split; [reflexivity |].
  intros H. apply StronglySorted_inv in H. destruct H as [_ H].
  apply Forall_inv_tail, Forall_inv in H.
  unfold score_le in H. vm_compute in H. discriminate H.
Qed.

(** The uniform model: the initial candidate and its successors. *)
Lemma score_monotone_witness :
  leb zero (score (initial_candidate (Scenario.vocabulary 0) tt)) = true /\
  forall (cs : list (candidate unit)) (s : candidate unit),
    expand Scenario.uniform argsort_insertion (Scenario.vocabulary 0) 3 2
           (initial_candidate (Scenario.vocabulary 0) tt) = Ok cs ->
    In s cs ->
    leb (score (initial_candidate (Scenario.vocabulary 0) tt)) (score s) = true.
Proof.
  apply (score_monotone _ _ Scenario.encode Scenario.uniform argsort_insertion
           (Scenario.vocabulary 0) 3 2 uniform_unit [] 0
           [initial_candidate (Scenario.vocabulary 0) tt]).
  - apply reach_initial.
  - simpl. left. reflexivity.
Defined.

(** The forced-stop model: token 0 is selected with probability zero. *)
Lemma zero_probability_successor_witness :
  exists (pool : list (candidate unit)) (s : candidate unit),
    new_candidates Scenario.forced_stop argsort_insertion
                   (Scenario.vocabulary 0) 10 3
                   [initial_candidate (Scenario.vocabulary 0) tt] = Ok pool /\
    idx_sequence s = [0; 0]%nat /\
    score s = PInf /\
    In s pool /\
    (In s (prune 3 pool) ->
     forall f : candidate unit,
       In f pool -> is_finite (score f) = true -> In f (prune 3 pool)) /\
    forall (pre post : list (candidate unit)) (x : candidate unit),
      prune 3 pool = pre ++ x :: post ->
      score x = PInf ->
      Forall (fun y => is_finite (score y) = false) post.
Proof.
  eexists.
  destruct (zero_probability_successor _ _ Scenario.encode Scenario.forced_stop
              argsort_insertion (Scenario.vocabulary 0) 10 3 [] 0
              [initial_candidate (Scenario.vocabulary 0) tt] _
              (initial_candidate (Scenario.vocabulary 0) tt) 0 0 0
              forced_stop_nonneg (reach_initial _ _ _ _ _ _ _)
              (or_introl eq_refl) eq_refl eq_refl eq_refl
              (or_intror (or_introl eq_refl)) eq_refl (Qeq_refl 0))
    as [s [_ [Hseq [Hscore [Hpool [Hkept Hafter]]]]]].
  exists s. split; [reflexivity |].
  split; [exact Hseq |].
  split; [exact Hscore |].
  split; [exact Hpool |].
  split; [exact Hkept | exact Hafter].
Defined.

(** A model with a negative entry and a zero entry, [beam_width = 2]:
    the pool of the first generation has the scores [+inf] and NaN, in
    which no entry is below its predecessor, so [sorted] returns it as it
    stands; the beam then holds the live candidate [[0; 0]] of score NaN.
    Id 1 has probability exactly 0 and is selected, and the successor for
    it has score [NaN - (-inf)], which is NaN. *)
Lemma zero_probability_after_nan :
  exists (top : list (candidate unit)) (c s : candidate unit),
    new_candidates Scenario.negative_and_zero argsort_insertion
                   Scenario.two_tokens 2 2
                   [initial_candidate Scenario.two_tokens tt] = Ok top /\
    map score top = [PInf; NaN] /\
    Sorted (fun a b => score_lt b a = false) top /\
    reach Scenario.encode Scenario.negative_and_zero argsort_insertion
          Scenario.two_tokens 2 2 [] 1 top /\
    In c top /\ live c = true /\
    idx_sequence c = [0; 0]%nat /\ score c = NaN /\
    target_seq 2 c = Ok 0%nat /\
    In 1%nat (selected argsort_insertion 2
                       (fst (Scenario.negative_and_zero 0 (states c)))) /\
    nth_error (fst (Scenario.negative_and_zero 0 (states c))) 1 = Some 0 /\
    successor Scenario.two_tokens c
              (fst (Scenario.negative_and_zero 0 (states c)))
              (snd (Scenario.negative_and_zero 0 (states c))) 1 = Ok s /\
    idx_sequence s = [0; 0; 1]%nat /\
    score s = NaN /\ score s <> PInf.
Proof.
  eexists. eexists. eexists.
  split; [vm_compute; reflexivity |].
  split; [reflexivity |].
  split; [repeat constructor |].
  split.
  { eapply reach_generation;
      [apply reach_initial | reflexivity | reflexivity
      | vm_compute; reflexivity]. }
  split; [right; left; reflexivity |].
  split; [reflexivity |].
  split; [reflexivity |].
  split; [reflexivity |].
  split; [reflexivity |].
  split; [left; reflexivity |].
  split; [reflexivity |].
  split; [vm_compute; reflexivity |].
  split; [reflexivity |].
  split; [reflexivity | discriminate].
Qed.

(** The forced-stop model: the pieces handed to the detokenizer. *)
Lemma decoded_starts_with_start_token_witness :
  (exists rest, ["<s>"; "</s>"]%string
                = start_token (Scenario.vocabulary 0) :: rest) /\
  exists c : candidate unit,
    winner Scenario.encode Scenario.forced_stop argsort_insertion
           (Scenario.vocabulary 0) 10 3 [] = Ok c /\
    token_sequence c = ["<s>"; "</s>"]%string /\
    (exists ids, idx_sequence c = start_token_idx (Scenario.vocabulary 0) :: ids) /\
    (start_token_idx (Scenario.vocabulary 0)
     <> stop_token_idx (Scenario.vocabulary 0) ->
     idx_sequence c <> [stop_token_idx (Scenario.vocabulary 0)]).
Proof.
  apply (decoded_starts_with_start_token _ _ Scenario.encode
           Scenario.forced_stop argsort_insertion (Scenario.vocabulary 0)
           10 3 []).
  vm_compute. reflexivity.
Defined.

(** A call with [beam_width = 0]. *)
Lemma nonpositive_configuration_witness :
  search Scenario.encode Scenario.uniform argsort_insertion
         (Scenario.vocabulary 0) 10 0 []
  = (0%nat, Ok [initial_candidate (Scenario.vocabulary 0) (Scenario.encode [])]) /\
  decode_beam_search Scenario.encode Scenario.uniform argsort_insertion
                     Scenario.DecodePieces (Scenario.vocabulary 0) 10 0 []
  = Ok (Scenario.DecodePieces [start_token (Scenario.vocabulary 0)]).
Proof.
  apply (nonpositive_configuration _ _ Scenario.encode Scenario.uniform
           argsort_insertion Scenario.DecodePieces (Scenario.vocabulary 0)
           10 0 []).
  left. lia.
Defined.

(** A call with [beam_width = 0], one with [beam_width = -1] and one with
    [max_len_target = 0]: none raises, each returns the decoded start
    piece. *)
Lemma nonpositive_configuration_not_rejected :
  decode_beam_search Scenario.encode Scenario.uniform argsort_insertion
                     Scenario.DecodePieces (Scenario.vocabulary 0) 10 0 []
  = Ok "<s>"%string /\
  decode_beam_search Scenario.encode Scenario.uniform argsort_insertion
                     Scenario.DecodePieces (Scenario.vocabulary 0) 10 (-1) []
  = Ok "<s>"%string /\
  decode_beam_search Scenario.encode Scenario.uniform argsort_insertion
                     Scenario.DecodePieces (Scenario.vocabulary 0) 0 3 []
  = Ok "<s>"%string /\
  ~ (exists e : exn,
        decode_beam_search Scenario.encode Scenario.uniform argsort_insertion
                           Scenario.DecodePieces (Scenario.vocabulary 0) 10 0 []
        = Raise e).
Proof.
  repeat split; try (vm_compute; reflexivity).
  intros [e H]. vm_compute in H. discriminate.
Qed.

Lemma degenerate_vocabulary :
  vocabulary_sized Scenario.degenerate (Scenario.vocabulary 0).
Proof. intros tok st. reflexivity. Qed.

(** The model of negative entries: the call completes. *)
Lemma decode_completes_witness :
  exists c : candidate unit,
    winner Scenario.encode Scenario.degenerate argsort_insertion
           (Scenario.vocabulary 0) 3 2 [] = Ok c /\
    decode_beam_search Scenario.encode Scenario.degenerate argsort_insertion
                       Scenario.DecodePieces (Scenario.vocabulary 0) 3 2 []
    = Ok (Scenario.DecodePieces (token_sequence c)).
Proof.
  apply (decode_completes _ _ Scenario.encode Scenario.degenerate
           argsort_insertion Scenario.DecodePieces (Scenario.vocabulary 0) 3 2
           ArgsortFacts.argsort_insertion_spec degenerate_vocabulary).
  - discriminate.
  - lia.
Defined.

(** A model that returns negative entries summing to [-2], and one whose
    entries sum to [2]: neither call raises; the first returns a sequence
    whose score is NaN, the second one whose score is below [0.0]. *)
Lemma degenerate_distribution_not_rejected :
  decode_beam_search Scenario.encode Scenario.degenerate argsort_insertion
                     Scenario.DecodePieces (Scenario.vocabulary 0) 3 2 []
  = Ok "<s>aaa"%string /\
  (exists c : candidate unit,
      winner Scenario.encode Scenario.degenerate argsort_insertion
             (Scenario.vocabulary 0) 3 2 [] = Ok c /\ score c = NaN) /\
  decode_beam_search Scenario.encode Scenario.oversized argsort_insertion
                     Scenario.DecodePieces (Scenario.vocabulary 0) 3 2 []
  = Ok "<s>aaa"%string /\
  (exists c : candidate unit,
      winner Scenario.encode Scenario.oversized argsort_insertion
             (Scenario.vocabulary 0) 3 2 [] = Ok c /\
      ltb (score c) zero = true).
Proof.
  split; [vm_compute; reflexivity |].
  split; [eexists; split; vm_compute; reflexivity |].
  split; [vm_compute; reflexivity |].
  eexists; split; vm_compute; reflexivity.
Qed.



(** What numpy documents of [np.argsort] leaves the order of equal keys
    open: an [argsort] within that contract under which the uniform
    distribution over four tokens, with [beam_width = 2], selects the two
    highest-numbered ids. *)
Lemma tie_not_to_lower_id :
  argsort_spec argsort_descending_ties /\
  selected argsort_descending_ties 2 [1 # 4; 1 # 4; 1 # 4; 1 # 4] = [3; 2]%nat /\
  ~ (forall i j : nat,
        (i < j)%nat ->
        In j (selected argsort_descending_ties 2 [1 # 4; 1 # 4; 1 # 4; 1 # 4]) ->
        key [1 # 4; 1 # 4; 1 # 4; 1 # 4] i == key [1 # 4; 1 # 4; 1 # 4; 1 # 4] j ->
        In i (selected argsort_descending_ties 2 [1 # 4; 1 # 4; 1 # 4; 1 # 4])).
Proof.
  split; [apply ArgsortFacts.argsort_descending_ties_spec |].
  split; [reflexivity |].
  intros H. specialize (H 0%nat 3%nat).
  assert (Hin : In 0%nat [3; 2]%nat).
  { apply H; [lia | now left | reflexivity]. }
  simpl in Hin. lia.
Qed.

(** The counting model with [beam_width = 1]: token 2 twice, then the
    stop token. *)
Lemma greedy_equivalence_witness :
  (forall probs : list Q,
      probs <> [] -> is_argmax probs (first_selected argsort_insertion probs)) /\
  (forall c : candidate nat,
      winner Scenario.counting_encode Scenario.counting argsort_insertion
             (Scenario.vocabulary 0) 10 1 [] = Ok c ->
      idx_sequence c
      = greedy_decode Scenario.counting_encode Scenario.counting
                      (Scenario.vocabulary 0) 10
                      (first_selected argsort_insertion) [] /\
      exists pieces : list string,
        token_sequence c = start_token (Scenario.vocabulary 0) :: pieces /\
        Forall2 (fun i piece =>
                   nth_error (tokens (Scenario.vocabulary 0)) i = Some piece)
                (tl (idx_sequence c)) pieces) /\
  (vocabulary_sized Scenario.counting (Scenario.vocabulary 0) ->
   tokens (Scenario.vocabulary 0) <> [] -> 10%Z <> 1%Z ->
   exists c : candidate nat,
     winner Scenario.counting_encode Scenario.counting argsort_insertion
            (Scenario.vocabulary 0) 10 1 [] = Ok c) /\
  greedy_decode Scenario.counting_encode Scenario.counting
                (Scenario.vocabulary 0) 10
                (first_selected argsort_insertion) [] = [0; 2; 2; 1]%nat.
Proof.
  pose proof (greedy_equivalence _ _ Scenario.counting_encode Scenario.counting
                argsort_insertion (Scenario.vocabulary 0) 10 1 eq_refl []
                ArgsortFacts.argsort_insertion_spec) as [H1 [H2 H3]].
  split; [exact H1 |].
  split; [exact H2 |].
  split; [exact H3 | reflexivity].
Defined.

(** The forced-stop model under insertion sort. *)
Lemma forced_stop_decode_witness :
  generations Scenario.encode Scenario.forced_stop argsort_insertion
              (Scenario.vocabulary 0) 10 3 [] = 3%nat /\
  decoded_pieces Scenario.encode Scenario.forced_stop argsort_insertion
                 (Scenario.vocabulary 0) 10 3 [] = Ok ["<s>"; "</s>"]%string /\
  exists c : candidate unit,
    winner Scenario.encode Scenario.forced_stop argsort_insertion
           (Scenario.vocabulary 0) 10 3 [] = Ok c /\
    idx_sequence c = [0; 1]%nat /\ score c = zero /\ live c = false.
Proof.
  apply (forced_stop_decode _ _ Scenario.encode (fun (_ : nat) (st : unit) => st)
           argsort_insertion 0 "<s>" "a" "</s>" "b" "c"
           ArgsortFacts.argsort_insertion_spec []).
Defined.

(** The forced-stop call runs three generations, not one, and hands two
    pieces to the detokenizer, not the stop piece alone. *)
Lemma forced_stop_not_one_generation :
  generations Scenario.encode Scenario.forced_stop argsort_insertion
              (Scenario.vocabulary 0) 10 3 [] = 3%nat /\
  decoded_pieces Scenario.encode Scenario.forced_stop argsort_insertion
                 (Scenario.vocabulary 0) 10 3 [] = Ok ["<s>"; "</s>"]%string /\
  ~ (generations Scenario.encode Scenario.forced_stop argsort_insertion
                 (Scenario.vocabulary 0) 10 3 [] = 1%nat /\
     exists piece : string,
       decoded_pieces Scenario.encode Scenario.forced_stop argsort_insertion
                      (Scenario.vocabulary 0) 10 3 [] = Ok [piece]).
Proof.
  split; [vm_compute; reflexivity |].
  split; [vm_compute; reflexivity |].
  intros [H _]. vm_compute in H. discriminate.
Qed.

(** ** The batch generator *)

Module BatchFacts.
Import Batch.
Local Open Scope nat_scope.

(** *** [np.array_split] *)

Lemma list_sum_repeat (x n : nat) : list_sum (repeat x n) = n * x.
Proof. induction n as [| n IH]; simpl; [reflexivity | now rewrite IH]. Qed.

Lemma section_sizes_sum (total sections : nat) :
  0 < sections -> list_sum (section_sizes total sections) = total.
Proof.
  intros Hk. unfold section_sizes.
  rewrite list_sum_app, !list_sum_repeat.
  pose proof (Nat.div_mod_eq total sections) as Hdm.
  pose proof (Nat.mod_upper_bound total sections) as Hlt.
  nia.
Qed.

Lemma section_sizes_length (total sections : nat) :
  0 < sections -> List.length (section_sizes total sections) = sections.
Proof.
  intros Hk. unfold section_sizes. rewrite length_app, !repeat_length.
  pose proof (Nat.mod_upper_bound total sections). lia.
Qed.

(** Every section has [total / sections] elements or one more; one more
    only when the division leaves a remainder. *)
Lemma section_sizes_bounds (total sections : nat) :
  Forall (fun size =>
            total / sections <= size <= S (total / sections) /\
            (total mod sections = 0 -> size = total / sections))
         (section_sizes total sections).
Proof.
  unfold section_sizes. apply Forall_app. split; apply Forall_forall;
    intros size Hs; pose proof (repeat_spec _ _ _ Hs) as ->;
    repeat split; try lia.
  intros H0. rewrite H0 in Hs. simpl in Hs. contradiction.
Qed.

Section Split.
Variable A : Type.

Lemma split_sizes_concat (sizes : list nat) :
  forall l : list A,
    list_sum sizes = List.length l -> List.concat (split_sizes l sizes) = l.
Proof.
  induction sizes as [| size rest IH]; simpl; intros l H.
  - destruct l; [reflexivity | discriminate].
  - rewrite IH; [apply firstn_skipn |].
    rewrite length_skipn. lia.
Qed.

Lemma split_sizes_lengths (sizes : list nat) :
  forall l : list A,
    list_sum sizes <= List.length l ->
    map (@List.length A) (split_sizes l sizes) = sizes.
Proof.
  induction sizes as [| size rest IH]; simpl; intros l H; [reflexivity |].
  rewrite IH by (rewrite length_skipn; lia).
  rewrite length_firstn. f_equal. lia.
Qed.
End Split.

(** *** The number of batches *)

Lemma ceil_div_bounds (n b : Z) :
  (0 < b)%Z -> (0 < n)%Z ->
  (0 < ceil_div n b <= n)%Z /\
  (n <= ceil_div n b * b)%Z /\ ((ceil_div n b - 1) * b < n)%Z.
Proof.
  intros Hb Hn. unfold ceil_div.
  pose proof (Z.div_mod (- n) b) as Hdm.
  pose proof (Z.mod_pos_bound (- n) b Hb) as Hm.
  nia.
Qed.

Lemma ceil_div_nonpositive (n b : Z) :
  (0 <= n)%Z -> (b < 0)%Z \/ n = 0%Z -> (b <> 0)%Z -> (ceil_div n b <= 0)%Z.
Proof.
  intros Hn H Hb. unfold ceil_div. destruct H as [H | ->].
  - pose proof (Z.div_mod (- n) b Hb) as Hdm.
    pose proof (Z.mod_neg_bound (- n) b H) as Hm. nia.
  - change (- 0)%Z with 0%Z. rewrite Z.div_0_l by assumption. lia.
Qed.

(** With [k = ceil(n / b)] sections no section is larger than [b]. *)
Lemma section_size_le (n k b : nat) :
  0 < k -> n <= k * b ->
  n / k <= b /\ (n mod k <> 0 -> S (n / k) <= b).
Proof.
  intros Hk H.
  pose proof (Nat.div_mod_eq n k) as Hdm.
  pose proof (Nat.mod_upper_bound n k) as Hlt.
  split; [nia |]. intros Hr. nia.
Qed.

(** *** The generator *)

Section GeneratorFacts.
Variable Categorical : Type.
Variable pad_sequences : list (list nat) -> Z -> call (list (list nat)).
Variable to_categorical : list (list nat) -> nat -> call Categorical.
Variable permutation : nat -> list nat.
Variable samples_ids : list nat.
Variable input_sequences target_sequences : list (list nat).
Variable batch_size : Z.
Variable max_len_input max_len_target : Z.
Variable nr_target_tokens : nat.

Local Abbreviation item' :=
  (item pad_sequences to_categorical permutation samples_ids input_sequences
        target_sequences batch_size max_len_input max_len_target
        nr_target_tokens).
Local Abbreviation next' :=
  (next pad_sequences to_categorical permutation samples_ids input_sequences
        target_sequences batch_size max_len_input max_len_target
        nr_target_tokens).
Local Abbreviation make_batch' :=
  (make_batch pad_sequences to_categorical input_sequences target_sequences
              max_len_input max_len_target nr_target_tokens).
Local Abbreviation batch_splits' :=
  (batch_splits permutation samples_ids batch_size).
Local Abbreviation keras_raises' :=
  (keras_raises pad_sequences to_categorical max_len_input max_len_target
                nr_target_tokens).

Lemma next_item (k : nat) (b : batch Categorical) :
  next' k = Yield b -> item' k = Yield b.
Proof.
  destruct k as [| k]; simpl; [trivial |].
  destruct (next' k); [trivial | discriminate | discriminate].
Qed.

Lemma next_stopped (k : nat) :
  (forall b, next' k <> Yield b) -> next' (S k) = StopIteration.
Proof.
  intros H. simpl. destruct (next' k) as [b | e |]; [| reflexivity | reflexivity].
  now elim (H b).
Qed.

Lemma splits_partition (pass : nat) :
  (0 < batch_size)%Z -> samples_ids <> [] ->
  Permutation (permutation pass) samples_ids ->
  exists splits : list (list nat),
    batch_splits' pass = Yield splits /\
    Z.of_nat (List.length splits)
    = ceil_div (Z.of_nat (List.length samples_ids)) batch_size /\
    List.concat splits = permutation pass /\
    Permutation (List.concat splits) samples_ids /\
    Forall (fun ids =>
              1 <= List.length ids /\
              (Z.of_nat (List.length ids) <= batch_size)%Z) splits /\
    forall ids1 ids2 : list nat,
      In ids1 splits -> In ids2 splits ->
      List.length ids1 <= S (List.length ids2).
Proof.
  intros Hb Hne Hperm.
  pose proof (Permutation_length Hperm) as Hlen.
  assert (Hn : (0 < Z.of_nat (List.length samples_ids))%Z).
  { destruct samples_ids; [congruence | simpl; lia]. }
  destruct (ceil_div_bounds _ _ Hb Hn) as [[Hk0 Hkn] [Hkb _]].
  set (sections := ceil_div (Z.of_nat (List.length samples_ids)) batch_size) in *.
  set (k := Z.to_nat sections).
  assert (Hk : 0 < k) by (unfold k; lia).
  exists (split_sizes (permutation pass)
                      (section_sizes (List.length (permutation pass)) k)).
  assert (Hsum : list_sum (section_sizes (List.length (permutation pass)) k)
                 = List.length (permutation pass))
    by now apply section_sizes_sum.
  assert (Hlens : map (@List.length nat)
                      (split_sizes (permutation pass)
                         (section_sizes (List.length (permutation pass)) k))
                  = section_sizes (List.length (permutation pass)) k)
    by (apply split_sizes_lengths; lia).
  assert (Hconcat : List.concat
                      (split_sizes (permutation pass)
                         (section_sizes (List.length (permutation pass)) k))
                    = permutation pass)
    by now apply split_sizes_concat.
  pose proof (section_sizes_bounds (List.length (permutation pass)) k) as Hbounds.
  rewrite <- Hlens in Hbounds. rewrite Forall_map in Hbounds.
  rewrite Forall_forall in Hbounds.
  assert (Hsize : List.length (permutation pass) <= k * Z.to_nat batch_size).
  { rewrite Hlen. unfold k. nia. }
  destruct (section_size_le _ _ _ Hk Hsize) as [Hq Hq1].
  assert (Hq0 : 1 <= List.length (permutation pass) / k).
  { apply Nat.div_le_lower_bound; [lia |]. rewrite Hlen. unfold k. lia. }
  repeat split.
  - unfold batch_splits, nr_batches, bind, array_split.
    destruct (Z.eqb_spec batch_size 0); [lia |].
    fold sections. destruct (Z.leb_spec sections 0); [lia |]. reflexivity.
  - rewrite <- (length_map (@List.length nat)), Hlens, section_sizes_length
      by assumption.
    unfold k. lia.
  - exact Hconcat.
  - now rewrite Hconcat.
  - apply Forall_forall. intros ids Hids.
    destruct (Hbounds ids Hids) as [[Hlo Hhi] Hexact].
    split; [lia |].
    destruct (Nat.eq_dec (List.length (permutation pass) mod k) 0) as [H0 | H0].
    + rewrite (Hexact H0). lia.
    + specialize (Hq1 H0). lia.
  - intros ids1 ids2 H1 H2.
    destruct (Hbounds ids1 H1) as [[_ Hhi] _].
    destruct (Hbounds ids2 H2) as [[Hlo _] _]. lia.
Qed.

(** X10.  With a positive batch size and at least one sample, the batches
    of a pass of the [while] loop split the shuffled ids: taken together
    they are the shuffled ids, so every sample is in exactly one batch of
    the pass; there are [ceil(n / batch_size)] of them; none is empty, none
    holds more than [batch_size] ids, and two of them differ in size by at
    most one. *)
Theorem pass_partition (pass : nat) :
  (0 < batch_size)%Z -> samples_ids <> [] ->
  Permutation (permutation pass) samples_ids ->
  exists splits : list (list nat),
    batch_splits' pass = Yield splits /\
    Z.of_nat (List.length splits)
    = ceil_div (Z.of_nat (List.length samples_ids)) batch_size /\
    List.concat splits = permutation pass /\
    Permutation (List.concat splits) samples_ids /\
    Forall (fun ids =>
              1 <= List.length ids /\
              (Z.of_nat (List.length ids) <= batch_size)%Z) splits /\
    forall ids1 ids2 : list nat,
      In ids1 splits -> In ids2 splits ->
      List.length ids1 <= S (List.length ids2).
Proof.
  intros Hb Hne Hperm.
  destruct (splits_partition pass Hb Hne Hperm) as [splits Hsplits].
  exists splits. exact Hsplits.
Qed.

(** X11.  A generator over no samples, or with a batch size that is not
    positive, yields nothing: its first [next] raises, [ZeroDivisionError]
    when the batch size is zero and the [ValueError] of [np.array_split]
    otherwise, and it is finished from then on. *)
Theorem generator_rejects :
  (batch_size <= 0)%Z \/ samples_ids = [] ->
  next' 0
  = Raise (if (batch_size =? 0)%Z then ZeroDivisionError else ValueError) /\
  forall k : nat, next' (S k) = StopIteration.
Proof.
  intros H.
  assert (H0 : next' 0
               = Raise (if (batch_size =? 0)%Z then ZeroDivisionError
                        else ValueError)).
  { simpl. unfold item, nr_batches, bind.
    destruct (Z.eqb_spec batch_size 0) as [Hz | Hz]; [reflexivity |].
    unfold batch_splits, nr_batches, bind.
    destruct (Z.eqb_spec batch_size 0); [contradiction |].
    unfold array_split.
    assert (Hc : (ceil_div (Z.of_nat (List.length samples_ids)) batch_size
                  <= 0)%Z).
    { apply ceil_div_nonpositive; [lia | | assumption].
      destruct H as [H | ->]; [left; lia | now right]. }
    destruct (Z.leb_spec
                (ceil_div (Z.of_nat (List.length samples_ids)) batch_size) 0);
      [reflexivity | lia]. }
  split; [exact H0 |].
  induction k as [| k IH].
  - apply next_stopped. intros b Hb. rewrite H0 in Hb. discriminate.
  - apply next_stopped. intros b Hb. rewrite IH in Hb. discriminate.
Qed.

(** *** Ids in and out of range *)

Lemma iloc_total (A : Type) (series : list A) (ids : list nat) :
  Forall (fun i => i < List.length series) ids ->
  exists rows : list A, iloc series ids = Yield rows.
Proof.
  induction 1 as [| i ids Hi _ [rows IH]]; simpl; [now exists [] |].
  destruct (nth_error series i) as [x |] eqn:E.
  - rewrite IH. simpl. now exists (x :: rows).
  - apply nth_error_None in E. lia.
Qed.

Lemma iloc_outcome (A : Type) (series : list A) (ids : list nat) :
  (exists rows, iloc series ids = Yield rows) \/
  iloc series ids = Raise IndexError.
Proof.
  induction ids as [| i ids IH]; simpl; [left; now exists [] |].
  destruct (nth_error series i) as [x |]; [| now right].
  destruct IH as [[rows ->] | ->]; simpl; [left; now eexists | now right].
Qed.

Lemma iloc_out_of_range (A : Type) (series : list A) (ids : list nat) (i : nat) :
  In i ids -> List.length series <= i -> iloc series ids = Raise IndexError.
Proof.
  intros Hin Hi. induction ids as [| j ids IH]; simpl; [contradiction |].
  destruct (nth_error series j) as [x |] eqn:E; [| reflexivity].
  destruct Hin as [-> | Hin].
  - assert (H : nth_error series i <> None) by congruence.
    apply nth_error_Some in H. lia.
  - now rewrite (IH Hin).
Qed.

Lemma iloc_In (A : Type) (series : list A) (ids : list nat) (rows : list A) :
  iloc series ids = Yield rows -> forall row : A, In row rows -> In row series.
Proof.
  revert rows. induction ids as [| i ids IH]; simpl; intros rows H row Hrow.
  - injection H as <-. contradiction.
  - destruct (nth_error series i) as [x |] eqn:E; [| discriminate].
    destruct (iloc series ids) as [xs | |]; simpl in H; try discriminate.
    injection H as <-. destruct Hrow as [<- | Hrow].
    + eapply nth_error_In, E.
    + now apply (IH xs).
Qed.

(** A batch is yielded, or [iloc] raises [IndexError], or a Keras call
    raises. *)
Lemma make_batch_outcome (ids : list nat) :
  (exists b, make_batch' ids = Yield b) \/
  exists e : exn,
    make_batch' ids = Raise e /\ (e = IndexError \/ keras_raises' e).
Proof.
  unfold make_batch, keras_raises.
  destruct (iloc_outcome _ input_sequences ids) as [[rows_X ->] | ->];
    [| right; exists IndexError; split; [reflexivity | now left]].
  simpl.
  destruct (pad_sequences rows_X max_len_input) as [batch_X | e] eqn:EX;
    [| right; exists e; split; [reflexivity | right; left; now exists rows_X]].
  simpl.
  destruct (iloc_outcome _ target_sequences ids) as [[rows_y ->] | ->];
    [| right; exists IndexError; split; [reflexivity | now left]].
  simpl.
  destruct (pad_sequences rows_y max_len_target) as [batch_y | e] eqn:Ey;
    [| right; exists e; split;
       [reflexivity | right; right; left; now exists rows_y]].
  simpl.
  destruct (to_categorical (label_rows batch_y) nr_target_tokens)
    as [y | e] eqn:Ec;
    [| right; exists e; split;
       [reflexivity | right; right; right; now exists (label_rows batch_y)]].
  left. simpl. now eexists.
Qed.

Lemma make_batch_in_range (ids : list nat) :
  pad_returns pad_sequences -> pad_values pad_sequences ->
  categorical_returns to_categorical ->
  (0 < max_len_input)%Z -> (0 < max_len_target)%Z -> 0 < nr_target_tokens ->
  Forall (Forall (fun token => token < nr_target_tokens)) target_sequences ->
  Forall (fun i => i < List.length input_sequences
                   /\ i < List.length target_sequences) ids ->
  exists b, make_batch' ids = Yield b.
Proof.
  intros Hret Hval Hcat HmX Hmy Hclasses Htokens H. unfold make_batch.
  destruct (iloc_total _ input_sequences ids) as [rows_X ->].
  { eapply Forall_impl; [| exact H]. simpl. tauto. }
  cbn [bind].
  destruct (Hret rows_X max_len_input HmX) as [batch_X ->].
  cbn [bind called].
  destruct (iloc_total _ target_sequences ids) as [rows_y Ey].
  { eapply Forall_impl; [| exact H]. simpl. tauto. }
  rewrite Ey. cbn [bind].
  destruct (Hret rows_y max_len_target Hmy) as [batch_y Epad]. rewrite Epad.
  cbn [bind called].
  destruct (Hcat (label_rows batch_y) nr_target_tokens Hclasses) as [y ->].
  { pose proof (Hval rows_y batch_y max_len_target Epad) as Hentries.
    unfold label_rows. rewrite Forall_map.
    eapply Forall_impl; [| exact Hentries].
    intros padded_row Hrow. cbv beta in *.
    rewrite Forall_forall in *. intros label Hlabel.
    assert (Hin : In label padded_row).
    { rewrite <- (firstn_skipn 1 padded_row). apply in_or_app. now right. }
    destruct (Hrow label Hin) as [-> | [row [Hrows Hlab]]]; [assumption |].
    apply (iloc_In _ _ _ _ Ey) in Hrows.
    specialize (Htokens row Hrows). rewrite Forall_forall in Htokens.
    now apply Htokens. }
  simpl. now eexists.
Qed.

(** A batch that holds an id out of range is not yielded. *)
Lemma make_batch_out_of_range (ids : list nat) (i : nat) :
  In i ids ->
  List.length input_sequences <= i \/ List.length target_sequences <= i ->
  exists e : exn,
    make_batch' ids = Raise e /\ (e = IndexError \/ keras_raises' e).
Proof.
  intros Hin Hi.
  destruct (make_batch_outcome ids) as [[b Hb] | Hraise]; [| exact Hraise].
  exfalso. unfold make_batch in Hb.
  destruct (iloc input_sequences ids) as [rows_X | |] eqn:EX; simpl in Hb;
    try discriminate.
  destruct (pad_sequences rows_X max_len_input); simpl in Hb;
    try discriminate.
  destruct (iloc target_sequences ids) as [rows_y | |] eqn:Ey; simpl in Hb;
    try discriminate.
  destruct Hi as [Hi | Hi].
  - rewrite (iloc_out_of_range _ _ _ i Hin Hi) in EX. discriminate.
  - rewrite (iloc_out_of_range _ _ _ i Hin Hi) in Ey. discriminate.
Qed.

Section ValidConfiguration.
Hypothesis batch_size_pos : (0 < batch_size)%Z.
Hypothesis samples_nonempty : samples_ids <> [].
Hypothesis shuffles :
  forall pass : nat, Permutation (permutation pass) samples_ids.

(** The item the generator computes at a position is [make_batch] of a
    batch of a pass. *)
Lemma item_batch (k : nat) :
  exists (splits : list (list nat)) (ids : list nat),
    batch_splits' (k / Z.to_nat (ceil_div (Z.of_nat (List.length samples_ids))
                                          batch_size))
    = Yield splits /\
    nth_error splits
              (k mod Z.to_nat (ceil_div (Z.of_nat (List.length samples_ids))
                                        batch_size))
    = Some ids /\
    item' k = make_batch' ids.
Proof.
  set (n := ceil_div (Z.of_nat (List.length samples_ids)) batch_size).
  destruct (splits_partition (k / Z.to_nat n) batch_size_pos samples_nonempty
              (shuffles _)) as [splits [Hs [Hlen _]]].
  fold n in Hlen.
  assert (Hn : 0 < Z.to_nat n).
  { destruct splits; simpl in Hlen; [| lia].
    assert (Hp : (0 < Z.of_nat (List.length samples_ids))%Z).
    { destruct samples_ids; [congruence | simpl; lia]. }
    pose proof (ceil_div_bounds _ _ batch_size_pos Hp). fold n in H. lia. }
  assert (Hlt : k mod Z.to_nat n < List.length splits).
  { pose proof (Nat.mod_upper_bound k (Z.to_nat n)). lia. }
  destruct (nth_error splits (k mod Z.to_nat n)) as [ids |] eqn:E;
    [| apply nth_error_None in E; lia].
  exists splits, ids. repeat split; try assumption.
  unfold item, nr_batches, bind.
  destruct (Z.eqb_spec batch_size 0); [lia |].
  fold n. rewrite Hs.
  now rewrite (nth_error_nth _ _ [] E).
Qed.

Lemma item_outcome (k : nat) :
  (exists b, item' k = Yield b) \/
  exists e : exn, item' k = Raise e /\ (e = IndexError \/ keras_raises' e).
Proof.
  destruct (item_batch k) as [splits [ids [_ [_ ->]]]].
  apply make_batch_outcome.
Qed.

(** X13.  With a positive batch size, at least one sample, every sample
    id a position of both series, positive padding lengths, every target
    token below [nr_target_tokens], and Keras calls that return as
    documented ([pad_sequences] for a positive [maxlen], with rows made of
    entries of the sequences and of zeros; [to_categorical] when
    [num_classes] is positive and every label is a class), the generator
    never ends and never raises: every [next] yields a batch. *)
Theorem generator_yields (k : nat) :
  pad_returns pad_sequences -> pad_values pad_sequences ->
  categorical_returns to_categorical ->
  (0 < max_len_input)%Z -> (0 < max_len_target)%Z -> 0 < nr_target_tokens ->
  Forall (Forall (fun token => token < nr_target_tokens)) target_sequences ->
  Forall (fun i => i < List.length input_sequences
                   /\ i < List.length target_sequences) samples_ids ->
  exists b : batch Categorical, next' k = Yield b.
Proof.
  intros Hret Hval Hcat HmX Hmy Hclasses Htokens Hrange.
  assert (Hitem : forall j, exists b, item' j = Yield b).
  { intros j. destruct (item_batch j) as [splits [ids [Hs [Hids ->]]]].
    apply make_batch_in_range; try assumption.
    destruct (splits_partition
                (j / Z.to_nat (ceil_div (Z.of_nat (List.length samples_ids))
                                        batch_size))
                batch_size_pos samples_nonempty (shuffles _))
      as [splits' [Hs' [_ [_ [Hperm _]]]]].
    rewrite Hs in Hs'. injection Hs' as <-.
    rewrite Forall_forall in *. intros i Hi. apply Hrange.
    apply (Permutation_in _ Hperm), in_concat.
    exists ids. split; [eapply nth_error_In; eassumption | assumption]. }
  induction k as [| k [b IH]]; simpl; [apply Hitem |].
  rewrite IH. apply Hitem.
Qed.

End ValidConfiguration.

(** *** Teacher forcing *)

Lemma skipn_removelast (A : Type) (row : list A) :
  skipn 1 (removelast row) = removelast (skipn 1 row).
Proof. destruct row as [| a [| b row]]; reflexivity. Qed.

Lemma length_removelast (A : Type) (row : list A) :
  List.length (removelast row) = List.length row - 1.
Proof.
  destruct row as [| a row]; [reflexivity |].
  destruct (@exists_last _ (a :: row)) as [pre [x E]]; [discriminate |].
  rewrite E, removelast_last, length_app. simpl. lia.
Qed.

Lemma iloc_length (A : Type) (series : list A) (ids : list nat) (rows : list A) :
  iloc series ids = Yield rows -> List.length rows = List.length ids.
Proof.
  revert rows. induction ids as [| i ids IH]; simpl; intros rows H.
  - injection H as <-. reflexivity.
  - destruct (nth_error series i); [| discriminate].
    destruct (iloc series ids) as [xs | |]; simpl in H; try discriminate.
    injection H as <-. simpl. now rewrite (IH xs).
Qed.

Lemma shifted_rows (rows : list (list nat)) :
  Forall2 (fun x_row label_row => skipn 1 x_row = removelast label_row)
          (map (@removelast nat) rows) (map (skipn 1) rows).
Proof.
  induction rows as [| row rows IH]; simpl; constructor;
    [apply skipn_removelast | assumption].
Qed.

(** X12.  Every batch the generator yields pairs each padded target row
    with itself shifted by one: the decoder input is the row without its
    last entry, the labels are made of the row without its first entry, so
    the label at a position is the decoder input of the next position.
    Under the documented shape of [pad_sequences], the encoder rows have
    width [max_len_input], the decoder rows and the label rows have width
    [max_len_target - 1], the width of the decoder input of the network,
    and all three have one row per id of the batch. *)
Theorem teacher_forcing (k : nat) (b : batch Categorical) :
  pad_shape pad_sequences ->
  (0 < max_len_input)%Z -> (0 < max_len_target)%Z ->
  next' k = Yield b ->
  exists labels : list (list nat),
    to_categorical labels nr_target_tokens = Returns (batch_y_t_output b) /\
    Forall2 (fun x_row label_row => skipn 1 x_row = removelast label_row)
            (batch_x_t_input b) labels /\
    List.length (batch_X b) = List.length (batch_x_t_input b) /\
    List.length labels = List.length (batch_x_t_input b) /\
    Forall (fun row => List.length row = Z.to_nat max_len_input) (batch_X b) /\
    Forall (fun row => List.length row = Z.to_nat (max_len_target - 1))
           (batch_x_t_input b) /\
    Forall (fun row => List.length row = Z.to_nat (max_len_target - 1)) labels.
Proof.
  intros Hpad HmX Hmy Hnext. apply next_item in Hnext.
  unfold item in Hnext.
  destruct (nr_batches samples_ids batch_size) as [n | |]; simpl in Hnext;
    try discriminate.
  destruct (batch_splits' (k / Z.to_nat n)) as [splits | |]; simpl in Hnext;
    try discriminate.
  remember (nth (k mod Z.to_nat n) splits []) as ids eqn:Hids. clear Hids.
  unfold make_batch in Hnext.
  destruct (iloc input_sequences ids) as [rows_X | |] eqn:EX; simpl in Hnext;
    try discriminate.
  destruct (pad_sequences rows_X max_len_input) as [padded_X |] eqn:EpX;
    simpl in Hnext; try discriminate.
  destruct (iloc target_sequences ids) as [rows_y | |] eqn:Ey; simpl in Hnext;
    try discriminate.
  destruct (pad_sequences rows_y max_len_target) as [padded_y |] eqn:Epy;
    simpl in Hnext; try discriminate.
  destruct (to_categorical (label_rows padded_y) nr_target_tokens)
    as [y |] eqn:Ec; simpl in Hnext; try discriminate.
  injection Hnext as <-. simpl.
  destruct (Hpad rows_X padded_X max_len_input HmX EpX) as [HXn HXw].
  destruct (Hpad rows_y padded_y max_len_target Hmy Epy) as [Hyn Hyw].
  apply iloc_length in EX, Ey.
  exists (label_rows padded_y).
  split; [exact Ec |].
  unfold label_rows. rewrite !length_map.
  repeat split; try congruence.
  - apply shifted_rows.
  - rewrite Forall_map. eapply Forall_impl; [| exact Hyw].
    intros row Hrow. cbv beta in *. rewrite length_removelast. lia.
  - rewrite Forall_map. eapply Forall_impl; [| exact Hyw].
    intros row Hrow. cbv beta in *. rewrite length_skipn. lia.
Qed.

End GeneratorFacts.

End BatchFacts.

(** ** Runs of the decoder and of the generator *)

Lemma forced_stop_unit : unit_model Scenario.forced_stop.
Proof. solve_model. Qed.

(** The forced-stop call: three generations, and the beam it ends with. *)
Lemma forced_stop_search :
  exists (top : list (candidate unit)) (c : candidate unit),
    search Scenario.encode Scenario.forced_stop argsort_insertion
           (Scenario.vocabulary 0) 10 3 [] = (3%nat, Ok top) /\
    winner Scenario.encode Scenario.forced_stop argsort_insertion
           (Scenario.vocabulary 0) 10 3 [] = Ok c /\
    In c top.
Proof.
  eexists. eexists. split; [vm_compute; reflexivity |].
  split; [vm_compute; reflexivity |]. left. reflexivity.
Defined.

(** The beam of the forced-stop call after its first generation. *)
Lemma forced_stop_first_generation :
  exists (top : list (candidate unit)) (c : candidate unit),
    reach Scenario.encode Scenario.forced_stop argsort_insertion
          (Scenario.vocabulary 0) 10 3 [] 1 top /\
    py_get top 0 = Ok c /\ live c = false.
Proof.
  eexists. eexists. split.
  - eapply reach_generation;
      [apply reach_initial | reflexivity | reflexivity | vm_compute; reflexivity].
  - split; reflexivity.
Defined.

(** The forced-stop call stops after three of its ten generations. *)
Lemma early_halt_witness :
  exists top : list (candidate unit),
    search Scenario.encode Scenario.forced_stop argsort_insertion
           (Scenario.vocabulary 0) 10 3 [] = (3%nat, Ok top) /\
    ((3%nat = 0%nat /\ (3 <= 0)%Z /\
      top = [initial_candidate (Scenario.vocabulary 0) (Scenario.encode [])]) \/
     ((0 < 3)%nat /\
      Forall (fun c =>
                live c = false /\
                exists pre,
                  idx_sequence c
                  = pre ++ [stop_token_idx (Scenario.vocabulary 0)]) top)).
Proof.
  destruct forced_stop_search as [top [c [Hs _]]].
  exists top. split; [exact Hs |].
  apply (early_halt _ _ Scenario.encode Scenario.forced_stop argsort_insertion
           (Scenario.vocabulary 0) 10 3 [] 3 top Hs).
  lia.
Defined.

(** The winner of the forced-stop call. *)
Lemma stop_token_last_witness :
  exists c : candidate unit,
    winner Scenario.encode Scenario.forced_stop argsort_insertion
           (Scenario.vocabulary 0) 10 3 [] = Ok c /\
    exists ids : list nat,
      idx_sequence c = start_token_idx (Scenario.vocabulary 0) :: ids /\
      Forall (fun i => i <> stop_token_idx (Scenario.vocabulary 0))
             (removelast ids) /\
      (live c = false <->
       exists pre, ids = pre ++ [stop_token_idx (Scenario.vocabulary 0)]).
Proof.
  destruct forced_stop_search as [top [c [Hs [Hw Hc]]]].
  exists c. split; [exact Hw |].
  apply (stop_token_last _ _ Scenario.encode Scenario.forced_stop
           argsort_insertion (Scenario.vocabulary 0) 10 3 [] 3 top c);
    [| exact Hc].
  apply search_reach. exact Hs.
Defined.

(** The winner of the forced-stop call has two ids. *)
Lemma decoded_length_witness :
  exists c : candidate unit,
    winner Scenario.encode Scenario.forced_stop argsort_insertion
           (Scenario.vocabulary 0) 10 3 [] = Ok c /\
    List.length (token_sequence c) = List.length (idx_sequence c) /\
    (1 <= List.length (idx_sequence c)
     <= S (generations Scenario.encode Scenario.forced_stop argsort_insertion
                       (Scenario.vocabulary 0) 10 3 []))%nat /\
    (Z.of_nat (List.length (idx_sequence c)) <= Z.max 0 10 + 1)%Z /\
    (live c = true ->
     List.length (idx_sequence c)
     = S (generations Scenario.encode Scenario.forced_stop argsort_insertion
                      (Scenario.vocabulary 0) 10 3 [])).
Proof.
  destruct forced_stop_search as [top [c [_ [Hw _]]]].
  exists c. split; [exact Hw |].
  apply (decoded_length _ _ Scenario.encode Scenario.forced_stop
           argsort_insertion (Scenario.vocabulary 0) 10 3 [] c Hw).
Defined.

Lemma counting_nonneg : nonneg_model Scenario.counting.
Proof.
  intros tok st. unfold Scenario.counting.
  destruct (st <? 2)%nat; simpl; repeat constructor; unfold Qle; simpl; lia.
Qed.

(** The second pruning of the counting model, [beam_width = 2]: the pool
    holds the two successors of the live candidate, of scores [log 4] and
    [log 8], and the dead candidate of score [log 4]; the two candidates of
    score [log 4] are kept and the one of score [log 8] is left out. *)
Lemma prune_keeps_lowest_witness :
  exists (top pool : list (candidate nat)) (kept out : candidate nat),
    reach Scenario.counting_encode Scenario.counting argsort_insertion
          (Scenario.vocabulary 0) 4 2 [] 1 top /\
    new_candidates Scenario.counting argsort_insertion (Scenario.vocabulary 0)
                   4 2 top = Ok pool /\
    map idx_sequence pool = [[0; 2; 2]; [0; 2; 1]; [0; 1]]%nat /\
    map score pool = [Ln 4; Ln 8; Ln 4] /\
    map idx_sequence (prune 2 pool) = [[0; 2; 2]; [0; 1]]%nat /\
    In kept (prune 2 pool) /\ score kept = Ln 4 /\
    In out pool /\ ~ In out (prune 2 pool) /\ score out = Ln 8 /\
    score_le kept out /\
    (forall c, In c (prune 2 pool) -> In c pool) /\
    List.length (prune 2 pool) = Nat.min (Z.to_nat 2) (List.length pool) /\
    (forall kept' out' : candidate nat,
        In kept' (prune 2 pool) -> In out' pool -> ~ In out' (prune 2 pool) ->
        score_le kept' out').
Proof.
  eexists. eexists. eexists. eexists.
  split.
  { eapply reach_generation;
      [apply reach_initial | reflexivity | reflexivity
      | vm_compute; reflexivity]. }
  split; [vm_compute; reflexivity |].
  split; [reflexivity |].
  split; [reflexivity |].
  split; [reflexivity |].
  split; [left; reflexivity |].
  split; [reflexivity |].
  split; [right; left; reflexivity |].
  split.
  { vm_compute. intros [H | [H | []]]; discriminate H. }
  split; [reflexivity |].
  split; [reflexivity |].
  match goal with
  | |- ?A /\ ?B /\ ?C => cut (A /\ ((0 <= 2)%Z -> B) /\ C)
  end.
  { intros [Hin [Hlen Hlow]].
    split; [exact Hin |]. split; [apply Hlen; lia | exact Hlow]. }
  eapply (prune_keeps_lowest _ _ Scenario.counting_encode Scenario.counting
            argsort_insertion (Scenario.vocabulary 0) 4 2 [] 1 _ _
            counting_nonneg).
  - eapply reach_generation;
      [apply reach_initial | reflexivity | reflexivity
      | vm_compute; reflexivity].
  - vm_compute. reflexivity.
Defined.

(** The winner of the forced-stop call has the lowest score of the final
    beam. *)
Lemma winner_lowest_score_witness :
  exists (top : list (candidate unit)) (c : candidate unit),
    search Scenario.encode Scenario.forced_stop argsort_insertion
           (Scenario.vocabulary 0) 10 3 [] = (3%nat, Ok top) /\
    In c top /\ forall c' : candidate unit, In c' top -> score_le c c'.
Proof.
  destruct forced_stop_search as [top [c [Hs [Hw _]]]].
  exists top, c. split; [exact Hs |].
  apply (winner_lowest_score _ _ Scenario.encode Scenario.forced_stop
           argsort_insertion (Scenario.vocabulary 0) 10 3 [] 3 top c
           forced_stop_nonneg Hs Hw).
Defined.

(** The winner of the forced-stop call, replayed. *)
Lemma score_is_replay_witness :
  exists c : candidate unit,
    winner Scenario.encode Scenario.forced_stop argsort_insertion
           (Scenario.vocabulary 0) 10 3 [] = Ok c /\
    exists ids : list nat,
      idx_sequence c = start_token_idx (Scenario.vocabulary 0) :: ids /\
      replay Scenario.forced_stop (Scenario.encode [])
             (start_token_idx (Scenario.vocabulary 0)) zero ids
      = Ok (states c, score c).
Proof.
  destruct forced_stop_search as [top [c [Hs [Hw Hc]]]].
  exists c. split; [exact Hw |].
  apply (score_is_replay _ _ Scenario.encode Scenario.forced_stop
           argsort_insertion (Scenario.vocabulary 0) 10 3 [] 3 top c);
    [| exact Hc].
  apply search_reach. exact Hs.
Defined.

(** A call with [max_len_target = 1]. *)
Lemma max_len_one_raises_witness :
  search Scenario.encode Scenario.uniform argsort_insertion
         (Scenario.vocabulary 0) 1 2 [] = (1%nat, Raise IndexError) /\
  decode_beam_search Scenario.encode Scenario.uniform argsort_insertion
                     Scenario.DecodePieces (Scenario.vocabulary 0) 1 2 []
  = Raise IndexError.
Proof.
  apply (max_len_one_raises _ _ Scenario.encode Scenario.uniform
           argsort_insertion Scenario.DecodePieces (Scenario.vocabulary 0)
           1 2 []).
  - reflexivity.
  - lia.
Defined.

(** The final beam of the forced-stop call holds three different
    sequences. *)
Lemma beam_distinct_witness :
  exists top : list (candidate unit),
    search Scenario.encode Scenario.forced_stop argsort_insertion
           (Scenario.vocabulary 0) 10 3 [] = (3%nat, Ok top) /\
    NoDup (map idx_sequence top).
Proof.
  destruct forced_stop_search as [top [c [Hs _]]].
  exists top. split; [exact Hs |].
  apply (beam_distinct _ _ Scenario.encode Scenario.forced_stop
           argsort_insertion (Scenario.vocabulary 0) 10 3
           ArgsortFacts.argsort_insertion_spec [] 3 top).
  apply search_reach. exact Hs.
Defined.

(** In the forced-stop call the dead candidate that leads the beam after
    the first generation is the one decoded two generations later. *)
Lemma dead_leader_wins_witness :
  exists (top : list (candidate unit)) (c : candidate unit),
    reach Scenario.encode Scenario.forced_stop argsort_insertion
          (Scenario.vocabulary 0) 10 3 [] 1 top /\
    py_get top 0 = Ok c /\
    winner Scenario.encode Scenario.forced_stop argsort_insertion
           (Scenario.vocabulary 0) 10 3 [] = Ok c.
Proof.
  destruct forced_stop_first_generation as [top [c [Hr [Hc Hl]]]].
  destruct forced_stop_search as [final [w [_ [Hw _]]]].
  exists top, c. split; [exact Hr |]. split; [exact Hc |].
  rewrite <- (dead_leader_wins _ _ Scenario.encode Scenario.forced_stop
                argsort_insertion (Scenario.vocabulary 0) 10 3
                forced_stop_unit [] 1 top c w Hr Hc Hl Hw).
  exact Hw.
Defined.

Module BatchRuns.
Import Batch BatchScenario.
Local Open Scope nat_scope.

Lemma pad_sequences_shape : pad_shape pad_sequences.
Proof.
  intros rows padded m Hm H. unfold pad_sequences in H.
  destruct (Z.ltb_spec 0 m); [| lia]. injection H as <-.
  unfold pad_post. split; [apply length_map |].
  rewrite Forall_map. apply Forall_forall. intros s _. cbv zeta.
  rewrite length_app, repeat_length, length_skipn. lia.
Qed.

Lemma pad_sequences_returns : pad_returns pad_sequences.
Proof.
  intros rows m Hm. unfold pad_sequences.
  destruct (Z.ltb_spec 0 m); [| lia]. now eexists.
Qed.

Lemma pad_sequences_values : pad_values pad_sequences.
Proof.
  intros rows padded m H. unfold pad_sequences in H.
  destruct (0 <? m)%Z; [| discriminate]. injection H as <-.
  unfold pad_post. rewrite Forall_map. apply Forall_forall. intros s Hs.
  cbv zeta. apply Forall_forall. intros x Hx.
  apply in_app_or in Hx. destruct Hx as [Hx | Hx].
  - right. exists s. split; [assumption |].
    rewrite <- (firstn_skipn (List.length s - Z.to_nat m) s).
    apply in_or_app. now right.
  - left. now apply repeat_spec in Hx.
Qed.

Lemma labels_checked (rows : list (list nat)) (classes : nat) :
  forallb (forallb (fun label => label <? classes)) rows = true <->
  Forall (Forall (fun label => label < classes)) rows.
Proof.
  rewrite forallb_forall, Forall_forall.
  split; intros H row Hrow; specialize (H row Hrow).
  - rewrite forallb_forall in H. apply Forall_forall.
    intros label Hlabel. now apply Nat.ltb_lt, H.
  - rewrite Forall_forall in H. apply forallb_forall.
    intros label Hlabel. now apply Nat.ltb_lt, H.
Qed.

Lemma to_categorical_returns : categorical_returns to_categorical.
Proof.
  intros labels classes Hclasses H. unfold to_categorical.
  destruct classes as [| classes]; [lia |].
  rewrite (proj2 (labels_checked labels (S classes)) H). now eexists.
Qed.

Lemma shuffle_permutation (pass : nat) : Permutation (shuffle pass) samples_ids.
Proof.
  unfold shuffle, samples_ids.
  destruct (Nat.even pass); apply NoDup_Permutation;
    try (repeat constructor; simpl; lia);
    intros x; simpl; lia.
Qed.

Lemma stray_permutation (pass : nat) :
  Permutation (stray_shuffle pass) stray_ids.
Proof.
  unfold stray_shuffle, stray_ids. apply NoDup_Permutation;
    try (repeat constructor; simpl; lia);
    intros x; simpl; lia.
Qed.

(** Seven samples in batches of three: three batches, of three, two and
    two ids. *)
Lemma pass_partition_witness :
  batch_splits shuffle samples_ids 3 0 = Yield [[3; 0; 6]; [1; 5]; [2; 4]] /\
  exists splits : list (list nat),
    batch_splits shuffle samples_ids 3 0 = Yield splits /\
    Z.of_nat (List.length splits)
    = ceil_div (Z.of_nat (List.length samples_ids)) 3 /\
    List.concat splits = shuffle 0 /\
    Permutation (List.concat splits) samples_ids /\
    Forall (fun ids =>
              1 <= List.length ids /\ (Z.of_nat (List.length ids) <= 3)%Z)
           splits /\
    forall ids1 ids2 : list nat,
      In ids1 splits -> In ids2 splits ->
      List.length ids1 <= S (List.length ids2).
Proof.
  split; [reflexivity |].
  apply (BatchFacts.pass_partition shuffle samples_ids 3 0).
  - lia.
  - discriminate.
  - apply shuffle_permutation.
Defined.

(** A generator with batch size zero. *)
Lemma generator_rejects_witness :
  next pad_sequences to_categorical shuffle samples_ids input_sequences
       target_sequences 0 3 5 10 0
  = Raise (if (0 =? 0)%Z then ZeroDivisionError else ValueError) /\
  forall k : nat,
    next pad_sequences to_categorical shuffle samples_ids input_sequences
         target_sequences 0 3 5 10 (S k) = StopIteration.
Proof.
  apply (BatchFacts.generator_rejects _ pad_sequences to_categorical shuffle
           samples_ids input_sequences target_sequences 0 3 5 10).
  left. lia.
Defined.

(** The first batch of the scenario generator. *)
Lemma teacher_forcing_witness :
  exists b : batch (list (list (list nat))),
    next pad_sequences to_categorical shuffle samples_ids input_sequences
         target_sequences 3 3 5 10 0 = Yield b /\
    batch_x_t_input b = [[2; 3; 1; 0]; [2; 4; 1; 0]; [2; 1; 0; 0]] /\
    exists labels : list (list nat),
      to_categorical labels 10 = Returns (batch_y_t_output b) /\
      Forall2 (fun x_row label_row => skipn 1 x_row = removelast label_row)
              (batch_x_t_input b) labels /\
      List.length (batch_X b) = List.length (batch_x_t_input b) /\
      List.length labels = List.length (batch_x_t_input b) /\
      Forall (fun row => List.length row = Z.to_nat 3) (batch_X b) /\
      Forall (fun row => List.length row = Z.to_nat (5 - 1))
             (batch_x_t_input b) /\
      Forall (fun row => List.length row = Z.to_nat (5 - 1)) labels.
Proof.
  eexists. split; [vm_compute; reflexivity |].
  split; [reflexivity |].
  apply (BatchFacts.teacher_forcing _ pad_sequences to_categorical shuffle
           samples_ids input_sequences target_sequences 3 3 5 10 0 _
           pad_sequences_shape).
  - lia.
  - lia.
  - vm_compute. reflexivity.
Defined.

Lemma samples_in_range :
  Forall (fun i => i < List.length input_sequences
                   /\ i < List.length target_sequences) samples_ids.
Proof. repeat constructor; simpl; lia. Qed.

Lemma target_tokens_in_range :
  Forall (Forall (fun token => token < 10)) target_sequences.
Proof. apply labels_checked. reflexivity. Qed.

(** The sixth [next] of the scenario generator, in its second pass. *)
Lemma generator_yields_witness :
  exists b : batch (list (list (list nat))),
    next pad_sequences to_categorical shuffle samples_ids input_sequences
         target_sequences 3 3 5 10 5 = Yield b.
Proof.
  apply (BatchFacts.generator_yields _ pad_sequences to_categorical shuffle
           samples_ids input_sequences target_sequences 3 3 5 10).
  - lia.
  - discriminate.
  - apply shuffle_permutation.
  - apply pad_sequences_returns.
  - apply pad_sequences_values.
  - apply to_categorical_returns.
  - lia.
  - lia.
  - lia.
  - apply target_tokens_in_range.
  - apply samples_in_range.
Defined.


(** The exceptions of the Keras calls come out of [next]: with four
    classes the label 4 of the first batch is no class, and
    [to_categorical] raises; with [max_len_input = 0], [pad_sequences]
    raises. *)
Lemma keras_exceptions_surface :
  next pad_sequences to_categorical shuffle samples_ids input_sequences
       target_sequences 3 3 5 4 0 = Raise IndexError /\
  next pad_sequences to_categorical shuffle samples_ids input_sequences
       target_sequences 3 0 5 10 0 = Raise ValueError.
Proof. split; reflexivity. Qed.

End BatchRuns.
